(** * survey_conda_envs: a shallow embedding and its verified properties

    The program walks directory trees, builds one memoised [Guess] per
    absolute path, infers the base installation of every conda environment
    from its [bin/activate] link and reads package versions from
    [conda-meta/*.json].

    The embedding follows [survey_conda_envs.py] function by function.
    - The string functions of [os.path] are written out ([posixpath]).
    - The operating system (the probes of [os] and [os.path],
      [open] + [json.load], [platform.node]) is a record of oracles, [Env].
      [TreeFS] builds such a record from a tree of directories, files and
      symbolic links, for running the program on concrete filesystems.
    - [Guess] objects live in an explicit heap and are referred to by
      identity, so that "the same object" and assignments to [guess.base]
      mean what they mean in Python; the class attribute [Guess.GUESSES]
      is a finite map from path to identity.
    - A computation threads the state, may raise, and may run out of its
      recursion budget: [make_guess] and [Guess._find_base] call each
      other with no bound of their own, and [os.walk] descends as deep as
      the tree is.
    - The state records, in order, what the program prints, the
      directories [os.walk] yields and the calls of the two callbacks.

    The first part holds the definitions, the second part the
    properties. *)

From Stdlib Require Import Ascii ZArith Lia Bool.
From Stdlib Require String DecimalString.
From stdpp Require Import base option list gmap strings fin_maps.

(** ** [os.path] for POSIX, on strings *)

Module posixpath.

Definition sep : ascii := "/"%char.

(** [s.startswith(p)] *)
Definition startswith (p s : string) : bool := String.prefix p s.

(** [s.endswith(suf)]: some suffix of [s] is [suf]. *)
Fixpoint endswith (suf s : string) : bool :=
  String.eqb s suf ||
  match s with
  | "" => false
  | String _ r => endswith suf r
  end.

Definition isabs (s : string) : bool := startswith "/" s.

(** [join(a, b)] with a single second component, the only form the
    program uses. *)
Definition join (a b : string) : string :=
  if startswith "/" b then b
  else if String.eqb a "" || endswith "/" a then a +:+ b
  else a +:+ "/" +:+ b.

(** [p[:i], p[i:]] for [i = p.rfind('/') + 1]. *)
Fixpoint rsplit_sep (p : string) : string * string :=
  match p with
  | "" => ("", "")
  | String c r =>
      let '(h, t) := rsplit_sep r in
      match h with
      | "" => if Ascii.eqb c sep then (String c "", r) else ("", String c r)
      | _ => (String c h, t)
      end
  end.

(** [s.rstrip('/')] *)
Fixpoint rstrip_sep (s : string) : string :=
  match s with
  | "" => ""
  | String c r =>
      match rstrip_sep r with
      | "" => if Ascii.eqb c sep then "" else String c ""
      | r' => String c r'
      end
  end.

(** [dirname]: the head, stripped of trailing slashes unless it consists
    of slashes only. *)
Definition dirname (p : string) : string :=
  let head := fst (rsplit_sep p) in
  match rstrip_sep head with
  | "" => head
  | stripped => stripped
  end.

Definition basename (p : string) : string := snd (rsplit_sep p).

(** [s.split('/')] *)
Fixpoint split_sep (s : string) : list string :=
  match s with
  | "" => [""]
  | String c r =>
      if Ascii.eqb c sep then "" :: split_sep r
      else match split_sep r with
           | [] => [String c ""]
           | h :: t => String c h :: t
           end
  end.

(** ['/'.join(comps)] *)
Fixpoint join_sep (comps : list string) : string :=
  match comps with
  | [] => ""
  | [c] => c
  | c :: cs => c +:+ "/" +:+ join_sep cs
  end.

(** One iteration of the loop of [normpath]; [stack] is [new_comps] with
    its last element first. *)
Definition norm_step (initial_slashes : nat) (stack : list string)
    (comp : string) : list string :=
  if String.eqb comp "" || String.eqb comp "." then stack
  else if negb (String.eqb comp "..")
          || (Nat.eqb initial_slashes 0 && match stack with [] => true | _ => false end)
          || match stack with top :: _ => String.eqb top ".." | [] => false end
       then comp :: stack
       else match stack with
            | [] => stack
            | _ :: rest => rest
            end.

Definition initial_slashes (path : string) : nat :=
  if startswith "/" path then
    if startswith "//" path && negb (startswith "///" path) then 2 else 1
  else 0.

Definition normpath (path : string) : string :=
  match path with
  | "" => "."
  | _ =>
      let n := initial_slashes path in
      let comps := rev (fold_left (norm_step n) (split_sep path) []) in
      let body := join_sep comps in
      let res := match n with 0 => body | 1 => "/" +:+ body | _ => "//" +:+ body end in
      match res with
      | "" => "."
      | _ => res
      end
  end.

(** [abspath], with the current directory made explicit. *)
Definition abspath (cwd path : string) : string :=
  normpath (if isabs path then path else join cwd path).

End posixpath.

(** ** Python values, exceptions and events *)

(** The values [json.load] produces; JSON numbers are the integers. *)
#[warnings="-register-all"] Inductive pyval :=
| PNone
| PBool (b : bool)
| PInt (z : Z)
| PStr (s : string)
| PList (l : list pyval)
| PDict (items : list (string * pyval)).

(** The exceptions the program can meet. The message is [str(error)]. *)
Inductive exn :=
| OSError (msg : string)         (* os.listdir, os.readlink, os.scandir, open *)
| ValueError (msg : string)      (* json.load on malformed text *)
| AttributeError (msg : string)  (* missing method on a value *)
| TypeError (msg : string)       (* unhashable dictionary key *)
| KeyError (key : string).       (* missing dictionary key *)

(** What [open(meta_file)] followed by [json.load(f)] gives. *)
Inductive loaded :=
| OpenFails (e : exn)
| Malformed (e : exn)
| Loaded (data : pyval).

(** A [Guess] object is identified by a natural number, its identity. *)

(** What the program does to the outside, in order. [EvYield],
    [EvReport] and [EvOnError] record that [os.walk] yielded a directory
    and that a callback was invoked. *)
Inductive event :=
| EvYield (dirpath : string)
| EvReport (guess : nat)
| EvOnError (e : exn)
| EvStdout (line : string)
| EvStderr (line : string).

#[global] Instance exn_eq_dec : EqDecision exn.
Proof. solve_decision. Defined.
#[global] Instance event_eq_dec : EqDecision event.
Proof. solve_decision. Defined.

(** ** The operating system as seen by the program *)

Record Env := {
  getcwd : string;
  isdir : string → bool;                    (* os.path.isdir *)
  isfile : string → bool;                   (* os.path.isfile *)
  islink : string → bool;                   (* os.path.islink *)
  readlink : string → exn + string;         (* os.readlink *)
  listdir : string → exn + list string;     (* os.listdir *)
  (* os.scandir as os.walk consumes it: the names of the entries that are
     directories and of those that are not, or the error *)
  scandir : string → exn + (list string * list string);
  load : string → loaded;                   (* open + json.load *)
  platform_node : string;                   (* platform.node() *)
  repr : pyval → string                     (* str() of a value that is not a str *)
}.

(** ** Objects and program state *)

(** [guess.base] is [None], a [Guess] or a [str]. *)
Inductive base_t :=
| BaseNone
| BaseRef (guess : nat)
| BaseStr (s : string).

#[global] Instance base_t_eq_dec : EqDecision base_t.
Proof. solve_decision. Defined.

Record Guess := {
  dirpath : string;
  path : string;
  meta_dir : string;
  history_file : string;
  bin_dir : string;
  activate_file : string;
  base : base_t;
  versions : list (pyval * pyval)   (* a dict, in insertion order *)
}.

Definition set_base (b : base_t) (g : Guess) : Guess :=
  {| dirpath := dirpath g; path := path g; meta_dir := meta_dir g;
     history_file := history_file g; bin_dir := bin_dir g;
     activate_file := activate_file g; base := b; versions := versions g |}.

Definition set_versions (v : list (pyval * pyval)) (g : Guess) : Guess :=
  {| dirpath := dirpath g; path := path g; meta_dir := meta_dir g;
     history_file := history_file g; bin_dir := bin_dir g;
     activate_file := activate_file g; base := base g; versions := v |}.

Record State := {
  heap : gmap nat Guess;      (* the Guess objects constructed so far *)
  next_id : nat;              (* the identity the next object gets *)
  GUESSES : gmap string nat;  (* Guess.GUESSES *)
  events : list event
}.

Definition initial_state : State :=
  {| heap := ∅; next_id := 0; GUESSES := ∅; events := [] |}.

(** ** Computations: state, exceptions, and a recursion budget *)

Inductive outcome (A : Type) :=
| Ok (a : A)
| Raise (e : exn)
| Exhausted.   (* the recursion budget ran out *)
Arguments Ok {A} a.
Arguments Raise {A} e.
Arguments Exhausted {A}.

Definition M (A : Type) : Type := State → outcome A * State.

Definition ret {A} (a : A) : M A := λ st, (Ok a, st).
Definition raise {A} (e : exn) : M A := λ st, (Raise e, st).
Definition exhausted {A} : M A := λ st, (Exhausted, st).
Definition bind {A B} (c : M A) (k : A → M B) : M B :=
  λ st, match c st with
        | (Ok a, st') => k a st'
        | (Raise e, st') => (Raise e, st')
        | (Exhausted, st') => (Exhausted, st')
        end.

Notation "x <- c ;; k" := (bind c (λ x, k))
  (at level 90, c at next level, right associativity).
Notation "c ;;; k" := (bind c (λ _, k))
  (at level 90, right associativity).

Definition get_state : M State := λ st, (Ok st, st).

Definition emit (evs : list event) : M unit :=
  λ st, (Ok tt, {| heap := heap st; next_id := next_id st;
                   GUESSES := GUESSES st; events := events st ++ evs |}).

(** Object creation: a fresh identity. *)
Definition alloc : M nat :=
  λ st, (Ok (next_id st),
         {| heap := heap st; next_id := S (next_id st);
            GUESSES := GUESSES st; events := events st |}).

Definition store (id : nat) (g : Guess) : M unit :=
  λ st, (Ok tt, {| heap := <[id := g]> (heap st); next_id := next_id st;
                   GUESSES := GUESSES st; events := events st |}).

(** Reading an object through a reference. References are only made from
    identities of constructed objects; the failing branch is there for
    totality. *)
Definition deref (id : nat) : M Guess :=
  λ st, match heap st !! id with
        | Some g => (Ok g, st)
        | None => (Raise (AttributeError "base"), st)
        end.

(** [Guess.GUESSES[path] = guess] *)
Definition cache_set (p : string) (id : nat) : M unit :=
  λ st, (Ok tt, {| heap := heap st; next_id := next_id st;
                   GUESSES := <[p := id]> (GUESSES st); events := events st |}).

(** [Guess.GUESSES[path]] *)
Definition cache_get (p : string) : M nat :=
  λ st, match GUESSES st !! p with
        | Some id => (Ok id, st)
        | None => (Raise (KeyError p), st)
        end.

(** [for x in l: f(x)] *)
Fixpoint for_each {A} (f : A → M unit) (l : list A) : M unit :=
  match l with
  | [] => ret tt
  | x :: l' => f x ;;; for_each f l'
  end.

(** Lift an oracle result. *)
Definition lift {A} (r : exn + A) : M A :=
  match r with
  | inl e => raise e
  | inr a => ret a
  end.

(** A callback reads the state, may print lines and may raise. *)
Inductive stream := stdout | stderr.

Definition callback (A : Type) : Type :=
  A → State → outcome unit * list (stream * string).

Definition print_event (out : stream * string) : event :=
  match out with
  | (stdout, line) => EvStdout line
  | (stderr, line) => EvStderr line
  end.

Definition call {A} (cb : callback A) (a : A) : M unit :=
  λ st, let '(o, out) := cb a st in
        match emit (print_event <$> out) st with
        | (_, st') => (o, st')
        end.

(** ** Python built-ins on values *)

(** [bool(v)] *)
Definition truthy (v : pyval) : bool :=
  match v with
  | PNone => false
  | PBool b => b
  | PInt z => negb (Z.eqb z 0)
  | PStr s => negb (String.eqb s "")
  | PList l => match l with [] => false | _ => true end
  | PDict items => match items with [] => false | _ => true end
  end.

(** Lists and dicts cannot be dictionary keys. *)
Definition hashable (v : pyval) : bool :=
  match v with
  | PList _ | PDict _ => false
  | _ => true
  end.

(** [k1 == k2] on hashable values: [True == 1] and [False == 0]. *)
Definition key_eqb (k1 k2 : pyval) : bool :=
  match k1, k2 with
  | PNone, PNone => true
  | PStr a, PStr b => String.eqb a b
  | PBool a, PBool b => Bool.eqb a b
  | PInt a, PInt b => Z.eqb a b
  | PBool a, PInt b | PInt b, PBool a => Z.eqb (if a then 1 else 0) b
  | _, _ => false
  end.

(** [d[k] = v] on a dict kept in insertion order. *)
Fixpoint dict_set (d : list (pyval * pyval)) (k v : pyval) : list (pyval * pyval) :=
  match d with
  | [] => [(k, v)]
  | (k', v') :: d' =>
      if key_eqb k' k then (k', v) :: d' else (k', v') :: dict_set d' k v
  end.

(** [d.get(k, default)] *)
Fixpoint dict_get (d : list (pyval * pyval)) (k default : pyval) : pyval :=
  match d with
  | [] => default
  | (k', v') :: d' => if key_eqb k' k then v' else dict_get d' k default
  end.

(** [data.get(key, None)] on a loaded value: only a dict has [get]. *)
Fixpoint items_get (items : list (string * pyval)) (key : string) : pyval :=
  match items with
  | [] => PNone
  | (k, v) :: items' => if String.eqb k key then v else items_get items' key
  end.

Definition py_get (data : pyval) (key : string) : M pyval :=
  match data with
  | PDict items => ret (items_get items key)
  | _ => raise (AttributeError "get")
  end.

(** [str(v)] *)
Definition py_str (env : Env) (v : pyval) : string :=
  match v with
  | PStr s => s
  | _ => repr env v
  end.

(** ** The program *)

Definition PATHOLOGICAL_DIRS : list string := [".git"; ".rbenv"; "pkgs"].
Definition PACKAGES_FOR_GUESS_VERSIONS : list string := ["conda"; "python"].
Definition N_A : string := "(?)".

(** [_print_stderr]: the default [onerror]. *)
Definition _print_stderr : callback exn :=
  λ e _, (Ok tt,
          [(stderr, match e with
                    | OSError m | ValueError m | AttributeError m
                    | TypeError m | KeyError m => m
                    end)]).

(** [resolve_link] *)
Definition resolve_link (env : Env) (link : string) : M string :=
  target <- lift (readlink env link) ;;
  if negb (posixpath.isabs target)
  then ret (posixpath.join (posixpath.dirname link) target)
  else ret target.

Section Guess.

Variable env : Env.

(** [make_guess], as the methods below call it. *)
Variable make_guess_rec : string → M nat.

(** [Guess.is_conda_environment] *)
Definition is_conda_environment (self : Guess) : bool :=
  if negb (isdir env (meta_dir self)) then false
  else if negb (isfile env (history_file self)) then false
  else true.

(** [Guess._find_base]; the result is what [self.base] is set to. *)
Definition _find_base (self_id : nat) (self : Guess) : M base_t :=
  if is_conda_environment self then
    if islink env (activate_file self) then
      base_activate_file <- resolve_link env (activate_file self) ;;
      let base_bin_dir := posixpath.dirname base_activate_file in
      let base_dir := posixpath.dirname base_bin_dir in
      if islink env base_activate_file then
        (* mitigate unlikely but pathological symlink loop *)
        ret (BaseStr base_dir)
      else
        b <- make_guess_rec base_dir ;; ret (BaseRef b)
    else if isfile env (activate_file self) then ret (BaseRef self_id)
    else ret BaseNone
  else ret BaseNone.

(** The body of the loop of [Guess._find_versions]. *)
Definition _find_versions_step (self : Guess)
    (versions : list (pyval * pyval)) (meta_name : string)
    : M (list (pyval * pyval)) :=
  if negb (posixpath.endswith ".json" meta_name) then ret versions
  else if negb (existsb (λ p, posixpath.startswith p meta_name)
                  PACKAGES_FOR_GUESS_VERSIONS) then ret versions
  else
    let meta_file := posixpath.join (meta_dir self) meta_name in
    match load env meta_file with
    | OpenFails e => raise e
    | Malformed e =>
        emit [EvStderr ("!! meta_file: " +:+ meta_file)] ;;; raise e
    | Loaded data =>
        name <- py_get data "name" ;;
        version <- py_get data "version" ;;
        if truthy name then
          if hashable name then ret (dict_set versions name version)
          else raise (TypeError "unhashable type")
        else ret versions
    end.

Fixpoint _find_versions_loop (self : Guess) (versions : list (pyval * pyval))
    (meta_names : list string) : M (list (pyval * pyval)) :=
  match meta_names with
  | [] => ret versions
  | meta_name :: rest =>
      versions' <- _find_versions_step self versions meta_name ;;
      _find_versions_loop self versions' rest
  end.

(** [Guess._find_versions]; the result is what [self.versions] is set to. *)
Definition _find_versions (self : Guess) : M (list (pyval * pyval)) :=
  if is_conda_environment self then
    meta_names <- lift (listdir env (meta_dir self)) ;;
    _find_versions_loop self [] meta_names
  else ret [].

(** The attributes [__init__] sets before it calls [_find_base]. *)
Definition Guess_attrs (dirpath : string) : Guess :=
  let path := posixpath.abspath (getcwd env) dirpath in
  let meta_dir := posixpath.join path "conda-meta" in
  let history_file := posixpath.join meta_dir "history" in
  let bin_dir := posixpath.join path "bin" in
  let activate_file := posixpath.join bin_dir "activate" in
  {| dirpath := dirpath; path := path; meta_dir := meta_dir;
     history_file := history_file; bin_dir := bin_dir;
     activate_file := activate_file;
     base := BaseNone; versions := [] |}.

(** [Guess(dirpath)]: object creation and [__init__]. The object enters
    the heap when [__init__] returns; until then only [__init__] holds a
    reference to it. *)
Definition Guess_init (dirpath : string) : M nat :=
  self_id <- alloc ;;
  let self := Guess_attrs dirpath in
  b <- _find_base self_id self ;;
  v <- _find_versions self ;;
  store self_id (set_versions v (set_base b self)) ;;;
  ret self_id.

End Guess.

(** [make_guess]; [fuel] bounds the depth of the recursion between
    [make_guess] and [Guess._find_base]. *)
Fixpoint make_guess (fuel : nat) (env : Env) (dirpath : string) : M nat :=
  match fuel with
  | 0 => exhausted
  | S fuel' =>
      let path := posixpath.abspath (getcwd env) dirpath in
      st <- get_state ;;
      match GUESSES st !! path with
      | None =>
          guess <- Guess_init env (make_guess fuel' env) dirpath ;;
          cache_set path guess
      | Some _ => ret tt
      end ;;;
      guess <- cache_get path ;;
      g <- deref guess ;;
      match base g with
      | BaseStr base =>
          b <- make_guess fuel' env base ;;
          g' <- deref guess ;;
          store guess (set_base (BaseRef b) g')
      | _ => ret tt
      end ;;;
      ret guess
  end.

(** [s.split('.', 1)[0]] *)
Fixpoint before_dot (s : string) : string :=
  match s with
  | "" => ""
  | String c r => if Ascii.eqb c "."%char then "" else String c (before_dot r)
  end.

(** [' | '.join(fields)] *)
Fixpoint join_bar (fields : list string) : string :=
  match fields with
  | [] => ""
  | [f] => f
  | f :: fs => f +:+ " | " +:+ join_bar fs
  end.

(** [report_for_jira] *)
Definition report_for_jira (env : Env) : callback nat :=
  λ guess st,
    match heap st !! guess with
    | None => (Raise (AttributeError "versions"), [])
    | Some g =>
        let host := before_dot (platform_node env) in
        let conda_ver := dict_get (versions g) (PStr "conda") (PStr N_A) in
        let python_ver := dict_get (versions g) (PStr "python") (PStr N_A) in
        match python_ver with
        | PStr pv =>
            let python_ver :=
              if posixpath.startswith "2." pv then pv +:+ "(!)" else pv in
            (* base = guess.base or N_A; '-' when it is guess itself *)
            let base_field :=
              match base g with
              | BaseNone => Some N_A
              | BaseStr s => Some (if String.eqb s "" then N_A else s)
              | BaseRef b =>
                  if Nat.eqb b guess then Some "-"
                  else path <$> (heap st !! b)
              end in
            match base_field with
            | None => (Raise (AttributeError "path"), [])
            | Some base =>
                let line :=
                  "| " +:+ join_bar [host; path g; py_str env conda_ver;
                                     python_ver; base] +:+ " |" in
                (Ok tt, [(stdout, line)])
            end
        | _ => (Raise (AttributeError "startswith"), [])
        end
    end.

(** [print], as a report: [str(guess)] is [str(guess.path)]. *)
Definition report_print : callback nat :=
  λ guess st,
    match heap st !! guess with
    | None => (Raise (AttributeError "path"), [])
    | Some g => (Ok tt, [(stdout, path g)])
    end.

Inductive report_choice := jira | print.

Definition REPORT_CHOICES (env : Env) (c : report_choice) : callback nat :=
  match c with
  | jira => report_for_jira env
  | print => report_print
  end.

Section Walk.

Variable env : Env.

(** What [os.walk] does with one of the directories the body left in
    [dirnames]: it walks it unless it is a symbolic link. *)
Definition walk_child (walk_rec : string → M unit) (top dirname : string)
    : M unit :=
  let new_path := posixpath.join top dirname in
  if islink env new_path then ret tt else walk_rec new_path.

(** [os.walk(top, onerror=onerror)], top-down and not following links.
    [body] is the body of the [for] loop that consumes the generator: it
    receives [dirpath] and [dirnames] and returns [dirnames] as the body
    left it, which is what the walk then descends into. *)
Fixpoint walk (fuel : nat) (body : string → list string → M (list string))
    (onerror : callback exn) (top : string) : M unit :=
  match fuel with
  | 0 => exhausted
  | S fuel' =>
      match scandir env top with
      | inl error => emit [EvOnError error] ;;; call onerror error
      | inr (dirs, nondirs) =>
          dirs' <- body top dirs ;;
          for_each (walk_child (walk fuel' body onerror) top) dirs'
      end
  end.

(** The body of the loop of [survey]. *)
Definition survey_body (make_guess_rec : string → M nat)
    (report : callback nat) (avoid : list string)
    (dirpath : string) (dirnames : list string) : M (list string) :=
  emit [EvYield dirpath] ;;;
  guess <- make_guess_rec dirpath ;;
  g <- deref guess ;;
  if is_conda_environment env g then
    emit [EvReport guess] ;;;
    call report guess ;;;
    ret []
  else
    let name := posixpath.basename dirpath in
    if existsb (String.eqb name) avoid then ret [] else ret dirnames.

(** [survey] *)
Definition survey (fuel : nat) (starting_directory : string)
    (report : callback nat) (onerror : callback exn) (avoid : list string)
    : M unit :=
  walk fuel (survey_body (make_guess fuel env) report avoid)
    onerror starting_directory.

(** [main], after [parse_args]; returning is [sys.exit(0)]. *)
Definition main (fuel : nat) (report : report_choice) (starts : list string)
    : M unit :=
  for_each
    (λ start, survey fuel start (REPORT_CHOICES env report)
                _print_stderr PATHOLOGICAL_DIRS)
    starts.

End Walk.

(** ** Observations on the events of a run *)

Definition yielded (evs : list event) : list string :=
  omap (λ e, match e with EvYield p => Some p | _ => None end) evs.

Definition reported (evs : list event) : list nat :=
  omap (λ e, match e with EvReport g => Some g | _ => None end) evs.

Definition onerrors (evs : list event) : list exn :=
  omap (λ e, match e with EvOnError x => Some x | _ => None end) evs.

Definition stdout_lines (evs : list event) : list string :=
  omap (λ e, match e with EvStdout l => Some l | _ => None end) evs.

Definition stderr_lines (evs : list event) : list string :=
  omap (λ e, match e with EvStderr l => Some l | _ => None end) evs.

(** ** A filesystem of directories, files and symbolic links

    An instance of [Env] that resolves paths as POSIX does, used to run
    the program on concrete trees. *)

Module TreeFS.

Inductive content :=
| Json (data : pyval)   (* well-formed JSON text *)
| Garbage               (* text json.load rejects *)
| Unreadable.           (* open is refused *)

#[warnings="-register-all"] Inductive node :=
| File (c : content)
| Dir (readable : bool) (entries : list (string * node))
| Symlink (target : string).

Fixpoint assoc {A} (k : string) (l : list (string * A)) : option A :=
  match l with
  | [] => None
  | (k', a) :: l' => if String.eqb k' k then Some a else assoc k l'
  end.

(** The node at a location, a list of entry names from the root. *)
Fixpoint get (root : node) (loc : list string) : option node :=
  match loc with
  | [] => Some root
  | name :: loc' =>
      match root with
      | Dir _ entries =>
          match assoc name entries with
          | Some child => get child loc'
          | None => None
          end
      | _ => None
      end
  end.

Definition components (p : string) : list string :=
  filter (λ c, c ≠ "" ∧ c ≠ ".") (posixpath.split_sep p).

(** Path resolution from location [loc]: the location of what the
    components name, following every link but, when [follow_last] is
    off, the last one. *)
Fixpoint resolve (fuel : nat) (root : node) (loc comps : list string)
    (follow_last : bool) : option (list string) :=
  match fuel with
  | 0 => None
  | S fuel' =>
      match comps with
      | [] => Some loc
      | c :: cs =>
          match get root loc with
          | Some (Dir _ entries) =>
              if String.eqb c ".." then
                resolve fuel' root (removelast loc) cs follow_last
              else
                match assoc c entries with
                | None => None
                | Some (Symlink target) =>
                    if match cs with [] => negb follow_last | _ => false end
                    then Some (loc ++ [c])
                    else resolve fuel' root
                           (if posixpath.isabs target then [] else loc)
                           (components target ++ cs) follow_last
                | Some _ => resolve fuel' root (loc ++ [c]) cs follow_last
                end
          | _ => None
          end
      end
  end.

Section Instance.

Variable root : node.
Variable cwd : string.

Definition locate (follow_last : bool) (p : string) : option (list string) :=
  resolve 64 root
    (if posixpath.isabs p then [] else components cwd)
    (components p) follow_last.

(** The directory, file or link a path names. *)
Definition stat (follow_last : bool) (p : string) : option node :=
  match p with
  | "" => None
  | _ => locate follow_last p ≫= get root
  end.

(** [os.path.realpath]: the location with every link resolved. *)
Definition realpath (p : string) : option (list string) :=
  match p with
  | "" => None
  | _ => locate true p
  end.

Definition tree_isdir (p : string) : bool :=
  match stat true p with Some (Dir _ _) => true | _ => false end.

Definition tree_isfile (p : string) : bool :=
  match stat true p with Some (File _) => true | _ => false end.

Definition tree_islink (p : string) : bool :=
  match stat false p with Some (Symlink _) => true | _ => false end.

Definition tree_readlink (p : string) : exn + string :=
  match stat false p with
  | Some (Symlink target) => inr target
  | Some _ => inl (OSError ("[Errno 22] Invalid argument: " +:+ p))
  | None => inl (OSError ("[Errno 2] No such file or directory: " +:+ p))
  end.

Definition tree_listdir (p : string) : exn + list string :=
  match stat true p with
  | Some (Dir true entries) => inr (fst <$> entries)
  | Some (Dir false _) => inl (OSError ("[Errno 13] Permission denied: " +:+ p))
  | Some _ => inl (OSError ("[Errno 20] Not a directory: " +:+ p))
  | None => inl (OSError ("[Errno 2] No such file or directory: " +:+ p))
  end.

Definition tree_scandir (p : string) : exn + (list string * list string) :=
  match tree_listdir p with
  | inl e => inl e
  | inr names =>
      inr (filter (λ n, tree_isdir (posixpath.join p n) = true) names,
           filter (λ n, tree_isdir (posixpath.join p n) = false) names)
  end.

Definition tree_load (p : string) : loaded :=
  match stat true p with
  | Some (File (Json data)) => Loaded data
  | Some (File Garbage) =>
      Malformed (ValueError "Expecting value: line 1 column 1 (char 0)")
  | Some (File Unreadable) =>
      OpenFails (OSError ("[Errno 13] Permission denied: " +:+ p))
  | Some _ => OpenFails (OSError ("[Errno 21] Is a directory: " +:+ p))
  | None => OpenFails (OSError ("[Errno 2] No such file or directory: " +:+ p))
  end.

(** [str] of the scalars; containers are abbreviated. *)
Definition tree_repr (v : pyval) : string :=
  match v with
  | PNone => "None"
  | PBool true => "True"
  | PBool false => "False"
  | PInt z => DecimalString.NilZero.string_of_int (Z.to_int z)
  | PStr s => s
  | PList _ => "[...]"
  | PDict _ => "{...}"
  end.

Definition env : Env :=
  {| getcwd := cwd;
     isdir := tree_isdir; isfile := tree_isfile; islink := tree_islink;
     readlink := tree_readlink; listdir := tree_listdir;
     scandir := tree_scandir; load := tree_load;
     platform_node := "host.example.org"; repr := tree_repr |}.

End Instance.

(** Builders for the examples. *)
Definition dir (entries : list (string * node)) : node := Dir true entries.
Definition json (items : list (string * pyval)) : node := File (Json (PDict items)).
Definition text : node := File Garbage.

(** A conda environment directory: [conda-meta/history], the given
    metadata files, and [bin] with the given entries. *)
Definition conda_env (meta bin : list (string * node)) : node :=
  dir [("conda-meta", dir (("history", text) :: meta)); ("bin", dir bin)].

End TreeFS.

(** ** Trees for the examples *)

(** The end-to-end scenario: [/root/.git] is pruned, [/root/envA] is its
    own base, [/root/envB] links to [/root/envA]. *)
Module Scenario.
Import TreeFS.

Definition envA : node :=
  conda_env
    [("conda-4.9.0-py39.json", json [("name", PStr "conda"); ("version", PStr "4.9.0")]);
     ("python-3.9.0-h.json", json [("name", PStr "python"); ("version", PStr "3.9.0")]);
     ("zlib-1.2.json", json [("name", PStr "zlib"); ("version", PStr "1.2")])]
    [("activate", text)].

Definition envB : node :=
  conda_env [] [("activate", Symlink "/root/envA/bin/activate")].

Definition tree : node :=
  dir [("root", dir [(".git", dir [("objects", dir [])]);
                     ("envA", envA); ("envB", envB);
                     ("src", dir [("lib", dir [])])])].

Definition run : outcome unit * State :=
  main (env tree "/") 10 print ["/root"] initial_state.

End Scenario.

Module Alias.
Import TreeFS.

(** [/r/link] is a symbolic link to the environment [/r/real]. *)
Definition tree : node :=
  dir [("r", dir [("real", conda_env [] [("activate", text)]);
                  ("link", Symlink "real")])].

Definition e : Env := env tree "/".

End Alias.

Module SelfLoop.
Import TreeFS.

(** [/A/bin/activate] is a link to a script beside it, so the candidate
    base directory of [/A] is [/A] itself. *)
Definition tree : node :=
  dir [("A", conda_env [] [("activate", Symlink "activate.sh");
                           ("activate.sh", text)])].

Definition e : Env := env tree "/".

End SelfLoop.

Module OneHop.
Import TreeFS.

(** [/opt/env/bin/activate] links to [/opt/mid/bin/activate], itself a
    link, to the activation script of [/opt/base]. *)
Definition tree : node :=
  dir [("opt",
        dir [("env", conda_env [] [("activate", Symlink "/opt/mid/bin/activate")]);
             ("mid", dir [("bin", dir [("activate", Symlink "/opt/base/bin/activate")])]);
             ("base", conda_env [] [("activate", text)])])].

Definition e : Env := env tree "/".

End OneHop.

Module TwoCycle.
Import TreeFS.

(** Two environments whose activation links point at each other. *)
Definition tree : node :=
  dir [("c",
        dir [("E", conda_env [] [("activate", Symlink "/c/B/bin/activate")]);
             ("B", conda_env [] [("activate", Symlink "/c/E/bin/activate")])])].

Definition e : Env := env tree "/".

End TwoCycle.

Module Changed.
Import TreeFS.

(** The tree of [OneHop] after [/opt/env/conda-meta/history] was removed. *)
Definition tree : node :=
  dir [("opt",
        dir [("env", dir [("conda-meta", dir []);
                          ("bin", dir [("activate", Symlink "/opt/mid/bin/activate")])]);
             ("mid", dir [("bin", dir [("activate", Symlink "/opt/base/bin/activate")])]);
             ("base", conda_env [] [("activate", text)])])].

Definition e : Env := env tree "/".

End Changed.

Module Unreadable.
Import TreeFS.

(** Environment [/r/a] holds a metadata file that cannot be opened;
    [/r/b] is a sound environment; [/r/locked] cannot be listed. *)
Definition tree : node :=
  dir [("r",
        dir [("locked", Dir false []);
             ("a", conda_env [("conda-4.9.0.json", File TreeFS.Unreadable)]
                     [("activate", text)]);
             ("b", conda_env [] [("activate", text)])])].

Definition e : Env := env tree "/".

End Unreadable.

Module NoVersion.
Import TreeFS.

(** The metadata of python names the package and gives no version. *)
Definition tree : node :=
  dir [("envs",
        dir [("py", conda_env
                      [("python-3.9.0-h.json", json [("name", PStr "python")]);
                       ("conda-4.9.0.json", json [("version", PStr "4.9.0")])]
                      [("activate", text)])])].

Definition e : Env := env tree "/".

End NoVersion.

Module Corrupt.
Import TreeFS.

(** The metadata of python in [/envs/bad] is not JSON. *)
Definition tree : node :=
  dir [("envs",
        dir [("bad", conda_env
                       [("conda-4.9.0.json",
                         json [("name", PStr "conda"); ("version", PStr "4.9.0")]);
                        ("zlib-1.2.json", text);
                        ("python-3.9.0-h.json", text)]
                       [("activate", text)]);
             ("good", conda_env [] [("activate", text)])])].

Definition e : Env := env tree "/".

End Corrupt.

(** * Vocabulary of the properties *)

(** ** Well-formed states and how a run extends them *)

(** The attributes [__init__] derives from [dirpath]. *)
Definition layout (env : Env) (g : Guess) : Prop :=
  path g = posixpath.abspath (getcwd env) (dirpath g)
  ∧ meta_dir g = posixpath.join (path g) "conda-meta"
  ∧ history_file g = posixpath.join (meta_dir g) "history"
  ∧ bin_dir g = posixpath.join (path g) "bin"
  ∧ activate_file g = posixpath.join (bin_dir g) "activate".

(** Every object was allocated and laid out by [__init__]; every cache
    entry refers to an object built for that very path. *)
Record state_wf (env : Env) (st : State) : Prop := {
  wf_heap : ∀ id g, heap st !! id = Some g → id < next_id st ∧ layout env g;
  wf_cache : ∀ k id, GUESSES st !! k = Some id →
             ∃ g, heap st !! id = Some g ∧ path g = k
}.

(** All attributes but [base] agree. *)
Definition same_fields (g g' : Guess) : Prop :=
  dirpath g' = dirpath g ∧ path g' = path g ∧ meta_dir g' = meta_dir g
  ∧ history_file g' = history_file g ∧ bin_dir g' = bin_dir g
  ∧ activate_file g' = activate_file g ∧ versions g' = versions g.

(** [base] stays, or goes from a path to the object for it. *)
Definition base_step (b b' : base_t) : Prop :=
  b' = b ∨ ∃ s r, b = BaseStr s ∧ b' = BaseRef r.

(** [st'] is a later state of the run that was in [st]. *)
Record state_ext (st st' : State) : Prop := {
  ext_cache : GUESSES st ⊆ GUESSES st';
  ext_next : next_id st ≤ next_id st';
  ext_heap : ∀ id g, heap st !! id = Some g →
             ∃ g', heap st' !! id = Some g' ∧ same_fields g g'
                   ∧ base_step (base g) (base g');
  ext_fresh : ∀ k id, GUESSES st' !! k = Some id →
              GUESSES st !! k = Some id ∨ next_id st ≤ id;
  ext_events : events st `prefix_of` events st'
}.

(** Only events were added. *)
Definition only_events (st st' : State) : Prop :=
  heap st' = heap st ∧ next_id st' = next_id st ∧ GUESSES st' = GUESSES st
  ∧ events st `prefix_of` events st'.

(** What the proofs need from a recursive call of [make_guess]. *)
Definition make_guess_post (env : Env) (dirpath : string) (st : State)
    (o : outcome nat) (st' : State) : Prop :=
  state_wf env st' ∧ state_ext st st'
  ∧ ∀ id, o = Ok id →
      GUESSES st' !! posixpath.abspath (getcwd env) dirpath = Some id
      ∧ ∃ g, heap st' !! id = Some g ∧ ∀ s, base g ≠ BaseStr s.

Definition make_guess_ok (env : Env) (mg : string → M nat) : Prop :=
  ∀ d st o st', state_wf env st → mg d st = (o, st') → make_guess_post env d st o st'.

(** ** The environment predicate *)

(** The two probes that decide whether the directory at [dirpath] is a
    conda environment. *)
Definition env_at (env : Env) (dirpath : string) : bool :=
  let path := posixpath.abspath (getcwd env) dirpath in
  isdir env (posixpath.join path "conda-meta")
  && isfile env (posixpath.join (posixpath.join path "conda-meta") "history").

(** ** Paths below a directory *)

(** An entry name as a directory listing gives it: not empty, no slash. *)
Fixpoint has_sep (s : string) : bool :=
  match s with
  | "" => false
  | String c r => Ascii.eqb c posixpath.sep || has_sep r
  end.

Definition name_ok (n : string) : Prop := n ≠ "" ∧ has_sep n = false.

(** The path [os.walk] forms for the directory reached from [top] through
    the entries [names]. *)
Definition descends (top : string) (names : list string) : string :=
  fold_left posixpath.join names top.

(** [q] names a directory strictly below [p]. *)
Definition beneath (p q : string) : Prop :=
  ∃ names, names ≠ [] ∧ Forall name_ok names ∧ q = descends p names.

(** The listings of the filesystem hold entry names only. *)
Definition scandir_ok (env : Env) : Prop :=
  ∀ p dirs nondirs, scandir env p = inr (dirs, nondirs) → Forall name_ok dirs.

(** Whether [survey] prunes below [dirpath]. *)
Definition prunes (env : Env) (avoid : list string) (dirpath : string) : bool :=
  env_at env dirpath || existsb (String.eqb (posixpath.basename dirpath)) avoid.

(** [top] with the separator [join] puts before the next component. *)
Definition with_sep (top : string) : string :=
  if String.eqb top "" || posixpath.endswith "/" top then top else top +:+ "/".

(** [/n1/n2...] *)
Fixpoint flat (names : list string) : string :=
  match names with
  | [] => ""
  | n :: ns => "/" +:+ n +:+ flat ns
  end.

(** ** What [make_guess] and the callbacks add to the events: prints *)

Definition is_print (e : event) : Prop :=
  match e with
  | EvStdout _ | EvStderr _ => True
  | _ => False
  end.

Definition quiet (st st' : State) : Prop :=
  ∃ evs, events st' = events st ++ evs ∧ Forall is_print evs.

Definition quietM {A} (c : M A) : Prop :=
  ∀ st o st', c st = (o, st') → quiet st st'.

(** ** The walk *)

Definition is_ok {A} (o : outcome A) : bool :=
  match o with
  | Ok _ => true
  | _ => false
  end.

(** Every directory the walk from [top] yields is reached from [top]
    through directories that [survey] did not prune. *)
Definition route_ok (env : Env) (avoid : list string) (top q : string) : Prop :=
  ∃ names, Forall name_ok names ∧ q = descends top names
    ∧ ∀ n1 n2, names = n1 ++ n2 → n2 ≠ [] →
        prunes env avoid (descends top n1) = false.

(** A stretch of a walk from [st] to [st']: the yielded directories
    satisfy [P]; what was reported is an environment; and when the stretch
    ended normally every yielded environment was reported. *)
Definition seg (env : Env) (P : string → Prop) (st : State) (ok : bool)
    (st' : State) : Prop :=
  state_wf env st' ∧ state_ext st st'
  ∧ ∃ evs, events st' = events st ++ evs
      ∧ Forall P (yielded evs)
      ∧ (∀ id, id ∈ reported evs →
           ∃ g, heap st' !! id = Some g ∧ is_conda_environment env g = true)
      ∧ (ok = true → ∀ p, p ∈ yielded evs → env_at env p = true →
           ∃ id, GUESSES st' !! posixpath.abspath (getcwd env) p = Some id
                 ∧ id ∈ reported evs).

(** ** The tree filesystem lists entry names *)

Definition name_okb (n : string) : bool :=
  negb (String.eqb n "") && negb (has_sep n).

(** Every entry of every directory of the tree has a proper name. *)
Fixpoint node_ok (n : TreeFS.node) : bool :=
  match n with
  | TreeFS.Dir _ entries =>
      (fix go (es : list (string * TreeFS.node)) : bool :=
         match es with
         | [] => true
         | (name, child) :: es' => name_okb name && node_ok child && go es'
         end) entries
  | _ => true
  end.

(** ** Version extraction *)

(** The JSON object has the field. *)
Fixpoint has_key (items : list (string * pyval)) (key : string) : bool :=
  match items with
  | [] => false
  | (k, _) :: items' => String.eqb k key || has_key items' key
  end.

(** ** A metadata file that does not parse *)

(** [_find_versions] reads the entry: its name has the extension and a
    tracked prefix. *)
Definition tracked (meta_name : string) : bool :=
  posixpath.endswith ".json" meta_name
  && existsb (λ p, posixpath.startswith p meta_name) PACKAGES_FOR_GUESS_VERSIONS.

(** The entry does not stop [_find_versions]: it is skipped, or it holds
    a JSON object whose [name] can be a key. *)
Definition loads_fine (env : Env) (self : Guess) (meta_name : string) : Prop :=
  tracked meta_name = false
  ∨ ∃ items,
      load env (posixpath.join (meta_dir self) meta_name) = Loaded (PDict items)
      ∧ hashable (items_get items "name") = true.

(** ** What a computation prints *)

(** The computation prints nothing when it returns, and at most the one
    line that names a metadata file when it raises. *)
Definition prints_on_failure_only {A} (c : M A) : Prop :=
  ∀ st o st', c st = (o, st') →
    events st' = events st
    ∨ ∃ x f, o = Raise x
             ∧ events st' = events st ++ [EvStderr ("!! meta_file: " +:+ f)].

(** ** What a walk leaves in the events *)

(** From [st] to [st'] a walk from [top] yielded [top] or directories
    that are not symbolic links, and reported only objects cached for
    yielded directories that are environments, at most one for each
    yield. *)
Definition trail (env : Env) (top : string) (st st' : State) : Prop :=
  ∃ evs, events st' = events st ++ evs
    ∧ Forall (λ q, q = top ∨ islink env q = false) (yielded evs)
    ∧ (∀ id, id ∈ reported evs →
         ∃ p, p ∈ yielded evs
              ∧ GUESSES st' !! posixpath.abspath (getcwd env) p = Some id
              ∧ env_at env p = true)
    ∧ length (reported evs) ≤ length (yielded evs).

(** * Properties *)

(** ** Evaluation checks *)

Example abspath_relative_spellings :
  posixpath.abspath "/home/u" "./a/b" = "/home/u/a/b"
  ∧ posixpath.abspath "/home/u" "a/b/" = "/home/u/a/b"
  ∧ posixpath.abspath "/home/u" "a/../a//b/." = "/home/u/a/b".
Proof. repeat split; reflexivity. Qed.

Example dirname_basename_examples :
  posixpath.dirname "/opt/base/bin/activate" = "/opt/base/bin"
  ∧ posixpath.dirname "/opt/base/bin" = "/opt/base"
  ∧ posixpath.dirname "/activate" = "/"
  ∧ posixpath.dirname "activate" = ""
  ∧ posixpath.dirname "//a///b" = "//a"
  ∧ posixpath.basename "/r/pkgs" = "pkgs"
  ∧ posixpath.basename "/r/pkgs/" = ""
  ∧ posixpath.join "/r" "conda-meta" = "/r/conda-meta"
  ∧ posixpath.join "/" "r" = "/r"
  ∧ posixpath.join "/r/bin" "/abs" = "/abs".
Proof. repeat split; reflexivity. Qed.

(** The scenario runs as described. *)
Example scenario_events :
fst Scenario.run = Ok tt
∧ events (snd Scenario.run) =
    [EvYield "/root";
     EvYield "/root/.git";
     EvYield "/root/envA"; EvReport 2; EvStdout "/root/envA";
     EvYield "/root/envB"; EvReport 3; EvStdout "/root/envB";
     EvYield "/root/src"; EvYield "/root/src/lib"]
∧ base <$> (heap (snd Scenario.run) !! 2) = Some (BaseRef 2)
∧ base <$> (heap (snd Scenario.run) !! 3) = Some (BaseRef 2)
∧ versions <$> (heap (snd Scenario.run) !! 2) =
    Some [(PStr "conda", PStr "4.9.0"); (PStr "python", PStr "3.9.0")].
Proof. vm_compute. repeat split; reflexivity. Qed.

Example scenario_jira :
let r := main (TreeFS.env Scenario.tree "/") 10 jira ["/root"] initial_state in
stdout_lines (events (snd r)) =
  ["| host | /root/envA | 4.9.0 | 3.9.0 | - |";
   "| host | /root/envB | (?) | (?) | /root/envA |"].
Proof. vm_compute. reflexivity. Qed.

(** ** Well-formed states and how a run extends them *)

Lemma same_fields_refl g : same_fields g g.
Proof. by repeat split. Qed.

Lemma same_fields_trans g1 g2 g3 :
  same_fields g1 g2 → same_fields g2 g3 → same_fields g1 g3.
Proof.
  intros (?&?&?&?&?&?&?) (?&?&?&?&?&?&?).
  repeat split; congruence.
Qed.

Lemma same_fields_set_base b g : same_fields g (set_base b g).
Proof. by repeat split. Qed.

Lemma base_step_refl b : base_step b b.
Proof. by left. Qed.

Lemma base_step_trans b1 b2 b3 :
  base_step b1 b2 → base_step b2 b3 → base_step b1 b3.
Proof.
  intros [->|(s&r&->&->)] [->|(s'&r'&?&->)]; try (by left);
    try (right; eauto); discriminate.
Qed.

Lemma base_step_not_str b b' :
  base_step b b' → (∀ s, b ≠ BaseStr s) → b' = b.
Proof. intros [->|(s&r&->&_)] H; [done|]. by destruct (H s). Qed.

Lemma state_ext_refl st : state_ext st st.
Proof.
  split; try done.
  - intros id g Hg. exists g. split_and!; [done|apply same_fields_refl|apply base_step_refl].
  - auto.
Qed.

Lemma state_ext_trans st1 st2 st3 :
  state_ext st1 st2 → state_ext st2 st3 → state_ext st1 st3.
Proof.
  intros [c1 n1 h1 f1 e1] [c2 n2 h2 f2 e2]. split.
  - by etrans.
  - lia.
  - intros id g Hg. destruct (h1 _ _ Hg) as (g'&Hg'&?&?).
    destruct (h2 _ _ Hg') as (g''&?&?&?). exists g''. split_and!; [done|..].
    + by eapply same_fields_trans.
    + by eapply base_step_trans.
  - intros k id Hk. destruct (f2 _ _ Hk) as [Hk'|?]; [|right; lia].
    destruct (f1 _ _ Hk'); [by left|right; lia].
  - by etrans.
Qed.

Lemma only_events_refl st : only_events st st.
Proof. done. Qed.

Lemma only_events_trans st1 st2 st3 :
  only_events st1 st2 → only_events st2 st3 → only_events st1 st3.
Proof.
  intros (?&?&?&?) (?&?&?&?). split_and!; try congruence. by etrans.
Qed.

Lemma only_events_ext st st' : only_events st st' → state_ext st st'.
Proof.
  intros (Hh&Hn&Hc&He). split; rewrite ?Hh, ?Hn, ?Hc; try done.
  - intros id g Hg. exists g. split_and!; [done|apply same_fields_refl|apply base_step_refl].
  - auto.
Qed.

Lemma only_events_wf env st st' :
  only_events st st' → state_wf env st → state_wf env st'.
Proof.
  intros (Hh&Hn&Hc&_) [w1 w2]. split; rewrite ?Hh, ?Hn, ?Hc; done.
Qed.

Lemma initial_state_wf env : state_wf env initial_state.
Proof. split; intros ??; simpl; by rewrite lookup_empty. Qed.

Lemma emit_only_events evs st : only_events st (snd (emit evs st)).
Proof. split_and!; try done. simpl. by apply prefix_app_r. Qed.

Lemma call_only_events {A} (cb : callback A) a st :
  only_events st (snd (call cb a st)).
Proof.
  unfold call. destruct (cb a st) as [o out]. simpl.
  split_and!; try done. simpl. by apply prefix_app_r.
Qed.

(** ** Inversion of computations *)

Lemma bind_inv {A B} (c : M A) (k : A → M B) st o st' :
  bind c k st = (o, st') →
  (∃ a st1, c st = (Ok a, st1) ∧ k a st1 = (o, st'))
  ∨ (∃ e, c st = (Raise e, st') ∧ o = Raise e)
  ∨ (c st = (Exhausted, st') ∧ o = Exhausted).
Proof.
  unfold bind. destruct (c st) as [[a|e|] st1]; intros H.
  - left. eauto.
  - right. left. exists e. by inversion H.
  - right. right. by inversion H.
Qed.

Lemma lift_inv {A} (r : exn + A) st o st' :
  lift r st = (o, st') →
  st' = st ∧ match r with inl e => o = Raise e | inr a => o = Ok a end.
Proof. destruct r; inversion 1; done. Qed.

Lemma py_get_inv data key st o st' :
  py_get data key st = (o, st') → st' = st.
Proof. destruct data; inversion 1; done. Qed.

(** ** The constructor and [make_guess] keep states well-formed *)

Section GuessFacts.

Variable env : Env.

Lemma resolve_link_inv link st o st' :
  resolve_link env link st = (o, st') → st' = st.
Proof.
  unfold resolve_link. intros H.
  apply bind_inv in H as [(t&st1&H1&H2)|[(e&H1&->)|[H1 ->]]];
    apply lift_inv in H1 as [-> H1]; try done.
  destruct (negb _); by inversion H2.
Qed.

Lemma _find_versions_step_only_events self vs name st o st' :
  _find_versions_step env self vs name st = (o, st') → only_events st st'.
Proof.
  unfold _find_versions_step.
  destruct (negb (posixpath.endswith _ _)); [by inversion 1|].
  destruct (negb (existsb _ _)); [by inversion 1|].
  destruct (load env _) as [e|e|data].
  - by inversion 1.
  - intros H. apply bind_inv in H as [(t&st1&H1&H2)|[(e'&H1&->)|[H1 ->]]].
    + injection H1 as <- <-. injection H2 as <- <-.
      apply (emit_only_events _ st).
    + discriminate.
    + discriminate.
  - intros H. apply bind_inv in H as [(n&st1&H1&H2)|[(e'&H1&->)|[H1 ->]]];
      apply py_get_inv in H1 as ->; try done.
    apply bind_inv in H2 as [(v&st1&H1&H2)|[(e'&H1&->)|[H1 ->]]];
      apply py_get_inv in H1 as ->; try done.
    destruct (truthy n); [destruct (hashable n)|]; by inversion H2.
Qed.

Lemma _find_versions_loop_only_events self names : ∀ vs st o st',
  _find_versions_loop env self vs names st = (o, st') → only_events st st'.
Proof.
  induction names as [|name names IH]; intros vs st o st' H; simpl in H.
  - by inversion H.
  - apply bind_inv in H as [(vs'&st1&H1&H2)|[(e'&H1&->)|[H1 ->]]];
      apply _find_versions_step_only_events in H1; try done.
    eapply only_events_trans; [done|]. by eapply IH.
Qed.

Lemma _find_versions_only_events self st o st' :
  _find_versions env self st = (o, st') → only_events st st'.
Proof.
  unfold _find_versions. destruct (is_conda_environment env self); [|by inversion 1].
  intros H. apply bind_inv in H as [(ns&st1&H1&H2)|[(e'&H1&->)|[H1 ->]]];
    apply lift_inv in H1 as [-> H1]; try done.
  by eapply _find_versions_loop_only_events.
Qed.

Lemma _find_base_spec mg self_id self st o st' :
  make_guess_ok env mg → state_wf env st →
  _find_base env mg self_id self st = (o, st') →
  state_wf env st' ∧ state_ext st st'.
Proof.
  intros Hmg Hwf. unfold _find_base.
  destruct (is_conda_environment env self); [|inversion 1; subst; eauto using state_ext_refl].
  destruct (islink env (activate_file self)).
  2:{ destruct (isfile env _); inversion 1; subst; eauto using state_ext_refl. }
  intros H. apply bind_inv in H as [(t&st1&H1&H2)|[(e'&H1&->)|[H1 ->]]];
    apply resolve_link_inv in H1 as ->; eauto using state_ext_refl.
  destruct (islink env t); [inversion H2; subst; eauto using state_ext_refl|].
  apply bind_inv in H2 as [(b&st1&H1&H2)|[(e'&H1&->)|[H1 ->]]];
    apply Hmg in H1 as (?&?&_); try done.
  by inversion H2; subst.
Qed.

Lemma alloc_wf st : state_wf env st → state_wf env (snd (alloc st)).
Proof.
  intros [w1 w2]. split; simpl; [|done].
  intros id g Hg. destruct (w1 _ _ Hg). split; [lia|done].
Qed.

Lemma alloc_ext st : state_ext st (snd (alloc st)).
Proof.
  split; simpl; try done; [lia| |auto].
  intros id g Hg. exists g.
  split_and!; [done|apply same_fields_refl|apply base_step_refl].
Qed.

(** The constructor: the new object has the identity [next_id st], is
    laid out for [dirpath], and no cache entry refers to it yet. *)
Lemma Guess_init_spec mg d st o st' :
  make_guess_ok env mg → state_wf env st →
  Guess_init env mg d st = (o, st') →
  state_wf env st' ∧ state_ext st st'
  ∧ (∀ k, GUESSES st' !! k ≠ Some (next_id st))
  ∧ ∀ id, o = Ok id →
      id = next_id st
      ∧ ∃ g, heap st' !! id = Some g ∧ layout env g ∧ dirpath g = d.
Proof.
  intros Hmg Hwf. unfold Guess_init. intros H.
  apply bind_inv in H as [(self&st1&H1&H2)|[(e'&H1&->)|[H1 ->]]];
    [|discriminate..].
  injection H1 as <- <-.
  set (sta := {| heap := heap st; next_id := S (next_id st);
                 GUESSES := GUESSES st; events := events st |}) in *.
  assert (Hwfa : state_wf env sta) by apply (alloc_wf st Hwf).
  assert (Hexa : state_ext st sta) by apply (alloc_ext st).
  assert (Hfresh : ∀ stx, state_ext sta stx → ∀ k, GUESSES stx !! k ≠ Some (next_id st)).
  { intros stx Hx k Hk. destruct (ext_fresh _ _ Hx _ _ Hk) as [Hk'|Hk']; simpl in Hk'; [|lia].
    destruct (wf_cache _ _ Hwf _ _ Hk') as (g&Hg&_).
    destruct (wf_heap _ _ Hwf _ _ Hg). lia. }
  apply bind_inv in H2 as [(b&stb&H1&H2)|[(e'&H1&->)|[H1 ->]]];
    apply _find_base_spec in H1 as [Hwfb Hexb]; try done;
    try (split_and!; [done|by eapply state_ext_trans|by apply Hfresh|done]).
  apply bind_inv in H2 as [(v&stc&H1&H2)|[(e'&H1&->)|[H1 ->]]];
    apply _find_versions_only_events in H1;
    pose proof (only_events_wf _ _ _ H1 Hwfb) as Hwfc;
    pose proof (state_ext_trans _ _ _ Hexb (only_events_ext _ _ H1)) as Hexc;
    try (split_and!; [done|by eapply state_ext_trans|by apply Hfresh|done]).
  injection H2 as <- <-.
  pose proof (state_ext_trans _ _ _ Hexa Hexc) as Hex.
  split_and!.
  - split; simpl.
    + intros id g. rewrite lookup_insert. case_decide as Hid.
      * intros [= <-]. subst id. split.
        -- pose proof (ext_next _ _ Hexc). simpl in *. lia.
        -- by repeat split.
      * apply Hwfc.
    + intros k id Hk. destruct (wf_cache _ _ Hwfc _ _ Hk) as (g&Hg&Hp).
      exists g. split; [|done]. rewrite lookup_insert_ne; [done|].
      intros <-. by apply (Hfresh stc Hexc k).
  - destruct Hex as [c n h f e]. split; simpl; try done.
    intros id g Hg. destruct (h _ _ Hg) as (g'&Hg'&?&?).
    exists g'. split_and!; try done. rewrite lookup_insert_ne; [done|].
    intros <-. destruct (wf_heap _ _ Hwf _ _ Hg). lia.
  - simpl. by apply Hfresh.
  - intros id [= <-]. split; [done|]. eexists. split; [simpl; apply lookup_insert_eq|].
    split; [by repeat split|done].
Qed.

End GuessFacts.

Section MakeGuessFacts.

Variable env : Env.

Lemma store_base_wf st guess g b :
  state_wf env st → heap st !! guess = Some g →
  state_wf env (snd (store guess (set_base b g) st)).
Proof.
  intros Hwf Hg. split; simpl.
  - intros id g0. rewrite lookup_insert. case_decide as Hid.
    + intros [= <-]. subst id. destruct (wf_heap _ _ Hwf _ _ Hg). done.
    + apply Hwf.
  - intros k id Hk. destruct (wf_cache _ _ Hwf _ _ Hk) as (g0&Hg0&Hp).
    rewrite lookup_insert. case_decide as Hid; [|eauto].
    subst id. exists (set_base b g). split; [done|]. simpl. congruence.
Qed.

Lemma make_guess_spec fuel : make_guess_ok env (make_guess fuel env).
Proof.
  induction fuel as [|fuel IH]; intros d st o st' Hwf H.
  { injection H as <- <-. split_and!; [done|apply state_ext_refl|done]. }
  simpl in H.
  apply bind_inv in H as [(st0&st0'&H1&H2)|[(e'&H1&->)|[H1 ->]]];
    [|discriminate..].
  injection H1 as <- <-.
  set (key := posixpath.abspath (getcwd env) d) in *.
  (* the cache holds an entry for the path once the first step is done *)
  assert (Hstep : ∀ o1 st1,
    match GUESSES st !! key with
    | Some _ => ret ()
    | None => guess <- Guess_init env (make_guess fuel env) d ;; cache_set key guess
    end st = (o1, st1) →
    state_wf env st1 ∧ state_ext st st1 ∧ (o1 = Ok () → is_Some (GUESSES st1 !! key))).
  { intros o1 st1. destruct (GUESSES st !! key) as [id0|] eqn:Hkey.
    - intros [= <- <-]. split_and!; [done|apply state_ext_refl|by rewrite Hkey].
    - intros H. apply bind_inv in H as [(id&sti&H1&H3)|[(e'&H1&->)|[H1 ->]]];
        apply Guess_init_spec in H1 as (Hwfi&Hexi&Hnot&Hok); try done.
      destruct (Hok id eq_refl) as (->&g&Hg&Hlay&Hd).
      injection H3 as <- <-. split_and!.
      + split; simpl; [apply Hwfi|].
        intros k id. rewrite lookup_insert. case_decide as Hk.
        * intros [= <-]. subst k. exists g. split; [done|].
          destruct Hlay as [-> _]. by rewrite Hd.
        * apply Hwfi.
      + destruct Hexi as [c n h f e]. split; simpl; try done.
        * apply map_subseteq_spec. intros k id Hk.
          rewrite lookup_insert_ne; [|congruence].
          by eapply lookup_weaken.
        * intros k id. rewrite lookup_insert. case_decide; [|apply f].
          intros [= <-]. right. lia.
      + intros _. simpl. rewrite lookup_insert_eq. eauto. }
  apply bind_inv in H2 as [([]&st1&H1&H2)|[(e'&H1&->)|[H1 ->]]];
    apply Hstep in H1 as (Hwf1&Hex1&Hsome); try done.
  destruct (Hsome eq_refl) as [guess Hguess].
  apply bind_inv in H2 as [(guess'&st1'&H1&H2)|[(e'&H1&->)|[H1 ->]]];
    unfold cache_get in H1; rewrite Hguess in H1; try discriminate.
  injection H1 as <- <-.
  destruct (wf_cache _ _ Hwf1 _ _ Hguess) as (g&Hg&Hpath).
  apply bind_inv in H2 as [(g0&st1'&H1&H2)|[(e'&H1&->)|[H1 ->]]];
    unfold deref in H1; rewrite Hg in H1; try discriminate.
  injection H1 as <- <-.
  apply bind_inv in H2 as [([]&st2&H1&H2)|[(e'&H1&->)|[H1 ->]]].
  - (* the base step returned *)
    injection H2 as <- <-.
    destruct (base g) as [|r|s] eqn:Hbase.
    + injection H1 as <-. split_and!; try done.
      intros id [= <-]. split; [done|]. exists g. split; [done|]. congruence.
    + injection H1 as <-. split_and!; try done.
      intros id [= <-]. split; [done|]. exists g. split; [done|]. congruence.
    + apply bind_inv in H1 as [(b&st3&H1&H3)|[(e'&H1&?)|[H1 ?]]];
        [|discriminate..].
      apply IH in H1 as (Hwf3&Hex3&_); [|done].
      destruct (ext_heap _ _ Hex3 _ _ Hg) as (g'&Hg'&Hsame&_).
      apply bind_inv in H3 as [(g0&st3'&H1&H3)|[(e'&H1&?)|[H1 ?]]];
        unfold deref in H1; rewrite Hg' in H1; try discriminate.
      injection H1 as <- <-. injection H3 as <-.
      split_and!.
      * by apply store_base_wf.
      * eapply state_ext_trans; [exact Hex1|].
        destruct Hex3 as [c n h f e]. split; simpl; try done.
        intros id g1 Hg1. rewrite lookup_insert. case_decide as Hid.
        -- subst id. rewrite Hg in Hg1. injection Hg1 as <-.
           eexists. split_and!; [done| |].
           ++ eapply same_fields_trans; [exact Hsame|apply same_fields_set_base].
           ++ right. rewrite Hbase. eauto.
        -- by apply h.
      * intros id [= <-]. simpl. split.
        -- eapply lookup_weaken; [exact Hguess|apply Hex3].
        -- eexists. split; [apply lookup_insert_eq|]. done.
  - (* the recursive call raised *)
    destruct (base g) as [|r|s] eqn:Hbase; try discriminate.
    apply bind_inv in H1 as [(b&st3&H1&H3)|[(e''&H1&?)|[H1 ?]]].
    + apply IH in H1 as (Hwf3&Hex3&_); [|done].
      destruct (ext_heap _ _ Hex3 _ _ Hg) as (g'&Hg'&Hsame&_).
      apply bind_inv in H3 as [(g0&st3'&H1&H3)|[(e3&H1&?)|[H1 ?]]];
        unfold deref in H1; rewrite Hg' in H1; discriminate.
    + apply IH in H1 as (Hwf3&Hex3&_); [|done].
      split_and!; [done|by eapply state_ext_trans|done].
    + discriminate.
  - (* the recursive call ran out of budget *)
    destruct (base g) as [|r|s] eqn:Hbase; try discriminate.
    apply bind_inv in H1 as [(b&st3&H1&H3)|[(e''&H1&?)|[H1 ?]]].
    + apply IH in H1 as (Hwf3&Hex3&_); [|done].
      destruct (ext_heap _ _ Hex3 _ _ Hg) as (g'&Hg'&Hsame&_).
      apply bind_inv in H3 as [(g0&st3'&H1&H3)|[(e3&H1&?)|[H1 ?]]];
        unfold deref in H1; rewrite Hg' in H1; discriminate.
    + discriminate.
    + apply IH in H1 as (Hwf3&Hex3&_); [|done].
      split_and!; [done|by eapply state_ext_trans|done].
Qed.

End MakeGuessFacts.

(** ** The cache: one object per absolute path *)

Lemma make_guess_unfold fuel env dirpath :
  make_guess (S fuel) env dirpath =
    (let path := posixpath.abspath (getcwd env) dirpath in
     st <- get_state ;;
     match GUESSES st !! path with
     | None =>
         guess <- Guess_init env (make_guess fuel env) dirpath ;;
         cache_set path guess
     | Some _ => ret tt
     end ;;;
     guess <- cache_get path ;;
     g <- deref guess ;;
     match base g with
     | BaseStr base =>
         b <- make_guess fuel env base ;;
         g' <- deref guess ;;
         store guess (set_base (BaseRef b) g')
     | _ => ret tt
     end ;;;
     ret guess).
Proof. reflexivity. Qed.

(** A request for a cached path whose [base] is settled returns the cached
    object and leaves the state as it is. *)
Lemma make_guess_cached fuel env d st id g :
  GUESSES st !! posixpath.abspath (getcwd env) d = Some id →
  heap st !! id = Some g →
  (∀ s, base g ≠ BaseStr s) →
  make_guess (S fuel) env d st = (Ok id, st).
Proof.
  intros Hc Hg Hb. rewrite make_guess_unfold. cbv zeta.
  unfold bind at 1. unfold get_state. rewrite Hc.
  unfold bind at 1. unfold ret at 1.
  unfold bind at 1. unfold cache_get. rewrite Hc.
  unfold bind at 1. unfold deref. rewrite Hg.
  unfold bind at 1. destruct (base g) as [|r|s]; try done.
  by destruct (Hb s).
Qed.

(** C1 (as amended): within a run, a second request for the same absolute
    path, whatever its spelling, returns the identical cached [Guess]
    object and constructs nothing: the state is left unchanged. The cache
    key is the lexical [abspath], so the guarantee is per absolute path,
    not per physical directory. *)
Theorem make_guess_same_path_same_object
    env fuel1 fuel2 d1 d2 st id1 st1 st2 :
  state_wf env st →
  make_guess fuel1 env d1 st = (Ok id1, st1) →
  state_ext st1 st2 →
  posixpath.abspath (getcwd env) d1 = posixpath.abspath (getcwd env) d2 →
  make_guess (S fuel2) env d2 st2 = (Ok id1, st2).
Proof.
  intros Hwf H1 Hext Habs.
  apply make_guess_spec in H1 as (_&_&Hok); [|done].
  destruct (Hok id1 eq_refl) as (Hc&g&Hg&Hb).
  destruct (ext_heap _ _ Hext _ _ Hg) as (g'&Hg'&_&Hstep).
  apply (make_guess_cached _ _ _ _ _ g').
  - rewrite <- Habs. eapply lookup_weaken; [exact Hc|apply Hext].
  - done.
  - apply base_step_not_str in Hstep; [|done]. by rewrite Hstep.
Qed.

Lemma make_guess_same_path_same_object_witness :
  let st1 := snd (make_guess 3 Alias.e "./r/real" initial_state) in
  make_guess 1 Alias.e "r/real/" st1 = (Ok 0, st1).
Proof.
  intros st1.
  apply (make_guess_same_path_same_object Alias.e 3 0 "./r/real" "r/real/"
           initial_state 0 st1 st1).
  - apply initial_state_wf.
  - vm_compute. reflexivity.
  - apply state_ext_refl.
  - vm_compute. reflexivity.
Defined.

(** C1 (as stated) fails: the two paths below name one physical
    directory, reached directly and through a symbolic link, and the run
    analyses it twice, building and reporting two distinct objects. *)
Lemma symlinked_directory_analyzed_twice :
  TreeFS.realpath Alias.tree "/" "/r/link" = TreeFS.realpath Alias.tree "/" "/r/real"
  ∧ (let r := main Alias.e 5 print ["/r/real"; "/r/link"] initial_state in
     fst r = Ok tt
     ∧ reported (events (snd r)) = [0; 1]
     ∧ GUESSES (snd r) !! "/r/real" = Some 0
     ∧ GUESSES (snd r) !! "/r/link" = Some 1
     ∧ next_id (snd r) = 2).
Proof. vm_compute. repeat split; reflexivity. Qed.

(** ** A request made again during base resolution *)

Lemma selfloop_init mg st :
  Guess_init SelfLoop.e mg "/A" st =
    (self_id <- alloc ;;
     b <- mg "/A" ;;
     store self_id
       {| dirpath := "/A"; path := "/A"; meta_dir := "/A/conda-meta";
          history_file := "/A/conda-meta/history"; bin_dir := "/A/bin";
          activate_file := "/A/bin/activate";
          base := BaseRef b; versions := [] |} ;;;
     ret self_id) st.
Proof.
  vm_compute. destruct (mg "/A" _) as [[b|x|] st1]; reflexivity.
Qed.

(** On the self-referring environment, a request for the uncached [/A]
    starts the constructor, whose base resolution requests [/A] again while
    the cache still lacks it: every level builds one more instance. *)
Lemma selfloop_exhausts fuel : ∀ st,
  GUESSES st !! "/A" = None →
  ∃ st', make_guess fuel SelfLoop.e "/A" st = (Exhausted, st')
         ∧ GUESSES st' = GUESSES st
         ∧ next_id st' = fuel + next_id st.
Proof.
  induction fuel as [|fuel IH]; intros st Hc; [by exists st|].
  rewrite make_guess_unfold. cbv zeta.
  change (posixpath.abspath (getcwd SelfLoop.e) "/A") with "/A".
  unfold bind at 1. unfold get_state. rewrite Hc.
  unfold bind at 1. unfold bind at 1. rewrite selfloop_init.
  unfold bind at 1. unfold alloc. unfold bind at 1.
  set (sta := {| heap := heap st; next_id := S (next_id st);
                 GUESSES := GUESSES st; events := events st |}).
  destruct (IH sta Hc) as (st1&->&Hg&Hn).
  exists st1. subst sta. simpl in *. split_and!; [done|done|lia].
Qed.

(** C2 (as stated) fails: on the self-referring environment the reentrant
    request made during base resolution does not find the instance under
    construction. Four levels of recursion build four instances of [/A]
    and cache none, and no budget is ever enough. *)
Lemma reentrant_lookup_builds_new_instances :
  (let r := make_guess 4 SelfLoop.e "/A" initial_state in
   fst r = Exhausted ∧ next_id (snd r) = 4 ∧ GUESSES (snd r) = ∅)
  ∧ (∀ fuel, fst (make_guess fuel SelfLoop.e "/A" initial_state) = Exhausted).
Proof.
  split.
  - destruct (selfloop_exhausts 4 initial_state eq_refl) as (st'&->&Hg&Hn).
    by repeat split.
  - intros fuel.
    by destruct (selfloop_exhausts fuel initial_state eq_refl) as (st'&->&_).
Qed.

(** C2 (as amended): [make_guess] stores a new [Guess] in the cache only
    after its constructor, and with it base resolution, has returned. When
    the constructor is over, however it ended, no cache entry refers to the
    object it was building; the entry for the path appears once
    [make_guess] has the constructed object in hand. *)
Theorem make_guess_caches_after_constructor env fuel d st :
  state_wf env st →
  GUESSES st !! posixpath.abspath (getcwd env) d = None →
  (∀ o st', Guess_init env (make_guess fuel env) d st = (o, st') →
     ∀ k, GUESSES st' !! k ≠ Some (next_id st))
  ∧ (∀ id st', make_guess (S fuel) env d st = (Ok id, st') →
       id = next_id st
       ∧ GUESSES st' !! posixpath.abspath (getcwd env) d = Some id).
Proof.
  intros Hwf Hc. split.
  - intros o st' H.
    apply Guess_init_spec in H as (_&_&H&_); [done|apply make_guess_spec|done].
  - intros id st' H.
    pose proof (make_guess_spec env (S fuel) _ _ _ _ Hwf H) as (_&_&Hok).
    destruct (Hok id eq_refl) as [Hid _]. split; [|done].
    rewrite make_guess_unfold in H. cbv zeta in H.
    apply bind_inv in H as [(st0&st0'&H1&H2)|[(e'&H1&?)|[H1 ?]]];
      [|discriminate..].
    injection H1 as <- <-. rewrite Hc in H2.
    apply bind_inv in H2 as [([]&st1&H1&H2)|[(e'&H1&?)|[H1 ?]]];
      [|discriminate..].
    apply bind_inv in H1 as [(id1&sti&H1&H3)|[(e'&H1&?)|[H1 ?]]];
      [|discriminate..].
    apply Guess_init_spec in H1 as (_&_&_&Hnew); [|apply make_guess_spec|done].
    destruct (Hnew id1 eq_refl) as [-> _].
    injection H3 as <-.
    apply bind_inv in H2 as [(id2&st2&H1&H2)|[(e'&H1&?)|[H1 ?]]];
      [|discriminate..].
    unfold cache_get in H1. simpl in H1. rewrite lookup_insert_eq in H1.
    injection H1 as <- <-.
    apply bind_inv in H2 as [(g&st3&H1&H2)|[(e'&H1&?)|[H1 ?]]];
      [|discriminate..].
    apply bind_inv in H2 as [([]&st4&H3&H2)|[(e'&H3&?)|[H3 ?]]];
      [|discriminate..].
    by injection H2 as <- _.
Qed.

Lemma make_guess_caches_after_constructor_witness :
  (∀ o st', Guess_init Alias.e (make_guess 2 Alias.e) "/r/real" initial_state = (o, st') →
     ∀ k, GUESSES st' !! k ≠ Some 0)
  ∧ (∀ id st', make_guess 3 Alias.e "/r/real" initial_state = (Ok id, st') →
       id = 0 ∧ GUESSES st' !! "/r/real" = Some id).
Proof.
  apply (make_guess_caches_after_constructor Alias.e 2 "/r/real" initial_state).
  - apply initial_state_wf.
  - reflexivity.
Defined.

(** ** Base resolution through a link to a link *)

Example onehop_test :
  let r := make_guess 5 OneHop.e "/opt/env" initial_state in
  fst r = Ok 0
  ∧ base <$> (heap (snd r) !! 0) = Some (BaseRef 1)
  ∧ path <$> (heap (snd r) !! 1) = Some "/opt/mid"
  ∧ fst (Guess_init OneHop.e (make_guess 5 OneHop.e) "/opt/env" initial_state) = Ok 0
  ∧ base <$> (heap (snd (Guess_init OneHop.e (make_guess 5 OneHop.e) "/opt/env" initial_state)) !! 0)
    = Some (BaseStr "/opt/mid").
Proof. vm_compute. repeat split; reflexivity. Qed.

Example twocycle_test :
  fst (make_guess 40 TwoCycle.e "/c/E" initial_state) = Exhausted
  ∧ next_id (snd (make_guess 40 TwoCycle.e "/c/E" initial_state)) = 2.
Proof. vm_compute. repeat split; reflexivity. Qed.

(** A request whose object holds a path in [base] does not return when
    the request for that path does not. *)
Lemma make_guess_pending fuel env d st id g s st' :
  GUESSES st !! posixpath.abspath (getcwd env) d = Some id →
  heap st !! id = Some g → base g = BaseStr s →
  make_guess fuel env s st = (Exhausted, st') →
  make_guess (S fuel) env d st = (Exhausted, st').
Proof.
  intros Hc Hg Hb Hrec. rewrite make_guess_unfold. cbv zeta.
  unfold bind at 1. unfold get_state. rewrite Hc.
  unfold bind at 1. unfold ret at 1.
  unfold bind at 1. unfold cache_get. rewrite Hc.
  unfold bind at 1. unfold deref. rewrite Hg.
  unfold bind at 1. rewrite Hb. unfold bind at 1. by rewrite Hrec.
Qed.

Lemma make_guess_absent_pending fuel env d st id st1 g s st' :
  GUESSES st !! posixpath.abspath (getcwd env) d = None →
  Guess_init env (make_guess fuel env) d st = (Ok id, st1) →
  heap st1 !! id = Some g → base g = BaseStr s →
  make_guess fuel env s
    (snd (cache_set (posixpath.abspath (getcwd env) d) id st1)) = (Exhausted, st') →
  make_guess (S fuel) env d st = (Exhausted, st').
Proof.
  intros Hc Hinit Hg Hb Hrec. rewrite make_guess_unfold. cbv zeta.
  unfold bind at 1. unfold get_state. rewrite Hc.
  unfold bind at 1. unfold bind at 1. rewrite Hinit.
  set (st2 := snd (cache_set (posixpath.abspath (getcwd env) d) id st1)) in *.
  change (cache_set (posixpath.abspath (getcwd env) d) id st1) with (Ok (), st2).
  unfold bind at 1. unfold cache_get.
  replace (GUESSES st2 !! posixpath.abspath (getcwd env) d) with (Some id)
    by (symmetry; apply lookup_insert_eq).
  unfold bind at 1. unfold deref. change (heap st2) with (heap st1). rewrite Hg.
  unfold bind at 1. rewrite Hb. unfold bind at 1. by rewrite Hrec.
Qed.

(** Both environments cached, each with the path of the other still in
    [base]: the two requests call each other for ever. *)
Lemma pingpong_exhausts fuel : ∀ st idE idB gE gB,
  GUESSES st !! "/c/E" = Some idE → GUESSES st !! "/c/B" = Some idB →
  heap st !! idE = Some gE → heap st !! idB = Some gB →
  base gE = BaseStr "/c/B" → base gB = BaseStr "/c/E" →
  make_guess fuel TwoCycle.e "/c/E" st = (Exhausted, st)
  ∧ make_guess fuel TwoCycle.e "/c/B" st = (Exhausted, st).
Proof.
  induction fuel as [|fuel IH]; intros st idE idB gE gB HcE HcB HhE HhB HbE HbB;
    [done|].
  destruct (IH st idE idB gE gB HcE HcB HhE HhB HbE HbB) as [IHE IHB]. split.
  - by apply (make_guess_pending fuel TwoCycle.e "/c/E" st idE gE "/c/B").
  - by apply (make_guess_pending fuel TwoCycle.e "/c/B" st idB gB "/c/E").
Qed.

Lemma twocycle_init (which : bool) mg st :
  let '(d, other) := if which then ("/c/E", "/c/B") else ("/c/B", "/c/E") in
  Guess_init TwoCycle.e mg d st =
    (Ok (next_id st),
     {| heap := <[next_id st := set_base (BaseStr other) (Guess_attrs TwoCycle.e d)]>
                  (heap st);
        next_id := S (next_id st); GUESSES := GUESSES st; events := events st |}).
Proof. destruct which; vm_compute; reflexivity. Qed.

(** On two environments whose activation links point at each other, the
    request for either never returns, whatever the budget. *)
Lemma twocycle_exhausts fuel :
  fst (make_guess fuel TwoCycle.e "/c/E" initial_state) = Exhausted.
Proof.
  destruct fuel as [|[|fuel]]; [done|by vm_compute|].
  erewrite (make_guess_absent_pending (S fuel) TwoCycle.e "/c/E" initial_state);
    [done|done|apply (twocycle_init true)|apply lookup_insert_eq|done|].
  eapply (make_guess_absent_pending fuel TwoCycle.e "/c/B");
    [done|apply (twocycle_init false)|apply lookup_insert_eq|done|].
  eapply (pingpong_exhausts fuel _ 0 1).
  - reflexivity.
  - reflexivity.
  - cbn. rewrite lookup_insert_ne by done. apply lookup_insert_eq.
  - apply lookup_insert_eq.
  - done.
  - done.
Qed.

(** C3 (as amended): when [E/bin/activate] is a link whose target is a
    link too, base resolution in the constructor does not recurse: for
    every [make_guess] it could call and in every state it returns the raw
    candidate base directory and leaves the state alone. Once [E] is
    cached, [make_guess] replaces that string: when the call that obtains
    [E] returns, [E.base] is the object cached for the candidate
    directory. *)
Theorem link_to_link_base env fuel d st target :
  let key := posixpath.abspath (getcwd env) d in
  let activate := posixpath.join (posixpath.join key "bin") "activate" in
  let base_activate_file :=
    if posixpath.isabs target then target
    else posixpath.join (posixpath.dirname activate) target in
  let base_dir := posixpath.dirname (posixpath.dirname base_activate_file) in
  state_wf env st →
  GUESSES st !! key = None →
  isdir env (posixpath.join key "conda-meta") = true →
  isfile env (posixpath.join (posixpath.join key "conda-meta") "history") = true →
  islink env activate = true →
  readlink env activate = inr target →
  islink env base_activate_file = true →
  (∀ mg self_id st0,
     _find_base env mg self_id (Guess_attrs env d) st0 = (Ok (BaseStr base_dir), st0))
  ∧ (∀ id st', make_guess (S fuel) env d st = (Ok id, st') →
       ∃ g b, heap st' !! id = Some g ∧ base g = BaseRef b
              ∧ GUESSES st' !! posixpath.abspath (getcwd env) base_dir = Some b).
Proof.
  intros key activate baf base_dir Hwf Hc Hdir Hfile Hlink Hread Hlink2.
  assert (Hfb : ∀ mg self_id st0,
    _find_base env mg self_id (Guess_attrs env d) st0 = (Ok (BaseStr base_dir), st0)).
  { intros mg self_id st0. unfold _find_base, is_conda_environment.
    cbn [Guess_attrs meta_dir history_file activate_file].
    fold key. rewrite Hdir, Hfile. cbn [negb]. fold activate. rewrite Hlink.
    unfold resolve_link, bind. rewrite Hread. cbn [lift ret].
    subst base_dir baf. destruct (posixpath.isabs target); cbn [negb ret].
    - by rewrite Hlink2.
    - by rewrite Hlink2. }
  split; [done|].
  intros id st' H. rewrite make_guess_unfold in H. cbv zeta in H. fold key in H.
  apply bind_inv in H as [(st0&st0'&H1&H2)|[(e'&H1&?)|[H1 ?]]]; [|discriminate..].
  injection H1 as <- <-. rewrite Hc in H2.
  apply bind_inv in H2 as [([]&st2&H1&H2)|[(e'&H1&?)|[H1 ?]]]; [|discriminate..].
  apply bind_inv in H1 as [(id1&st1&H1&H3)|[(e'&H1&?)|[H1 ?]]]; [|discriminate..].
  injection H3 as <-.
  (* the constructor leaves the string in [base] *)
  pose proof (Guess_init_spec env _ _ _ _ _ (make_guess_spec env fuel) Hwf H1)
    as (Hwf1&_&_&_).
  unfold Guess_init in H1.
  apply bind_inv in H1 as [(self&sta&H1&H3)|[(e'&H1&?)|[H1 ?]]]; [|discriminate..].
  injection H1 as <- <-. unfold bind at 1 in H3. rewrite Hfb in H3.
  apply bind_inv in H3 as [(v&stc&H1&H3)|[(e'&H1&?)|[H1 ?]]]; [|discriminate..].
  injection H3 as <- <-. clear H1.
  set (id0 := next_id st) in *.
  set (g0 := set_versions v (set_base (BaseStr base_dir) (Guess_attrs env d))) in *.
  cbn [heap next_id GUESSES events] in H2.
  set (st2 := {| heap := <[id0:=g0]> (heap stc); next_id := next_id stc;
                 GUESSES := <[key:=id0]> (GUESSES stc); events := events stc |}) in *.
  assert (Hg0 : heap st2 !! id0 = Some g0) by apply lookup_insert_eq.
  assert (Hc2 : GUESSES st2 !! key = Some id0) by apply lookup_insert_eq.
  assert (Hbase0 : base g0 = BaseStr base_dir) by reflexivity.
  assert (Hwf2 : state_wf env st2).
  { split; simpl; [apply Hwf1|].
    intros k i. rewrite lookup_insert. case_decide as Hk.
    - intros [= <-]. subst k. exists g0. split; [apply lookup_insert_eq|reflexivity].
    - apply Hwf1. }
  apply bind_inv in H2 as [(id2&st2'&H1&H2)|[(e'&H1&?)|[H1 ?]]]; [|discriminate..].
  unfold cache_get in H1. rewrite Hc2 in H1. injection H1 as <- <-.
  apply bind_inv in H2 as [(g&st2'&H1&H2)|[(e'&H1&?)|[H1 ?]]]; [|discriminate..].
  unfold deref in H1. rewrite Hg0 in H1. injection H1 as <- <-.
  apply bind_inv in H2 as [([]&st4&H1&H2)|[(e'&H1&?)|[H1 ?]]]; [|discriminate..].
  injection H2 as <- <-. rewrite Hbase0 in H1.
  apply bind_inv in H1 as [(b&st3&H1&H2)|[(e'&H1&?)|[H1 ?]]]; [|discriminate..].
  apply make_guess_spec in H1 as (_&Hex3&Hok); [|done].
  destruct (Hok b eq_refl) as [Hb _].
  destruct (ext_heap _ _ Hex3 id0 g0) as (g'&Hg'&_); [done|].
  apply bind_inv in H2 as [(g''&st3'&H1&H2)|[(e'&H1&?)|[H1 ?]]];
    unfold deref in H1; rewrite Hg' in H1; try discriminate.
  injection H1 as <- <-. injection H2 as <-.
  exists (set_base (BaseRef b) g'), b. simpl. split_and!; [apply lookup_insert_eq|done|done].
Qed.

Lemma link_to_link_base_witness :
  (∀ mg self_id st0,
     _find_base OneHop.e mg self_id (Guess_attrs OneHop.e "/opt/env") st0
     = (Ok (BaseStr "/opt/mid"), st0))
  ∧ (∀ id st', make_guess 5 OneHop.e "/opt/env" initial_state = (Ok id, st') →
       ∃ g b, heap st' !! id = Some g ∧ base g = BaseRef b
              ∧ GUESSES st' !! "/opt/mid" = Some b).
Proof.
  apply (link_to_link_base OneHop.e 4 "/opt/env" initial_state "/opt/mid/bin/activate").
  - apply initial_state_wf.
  - reflexivity.
  - vm_compute. reflexivity.
  - vm_compute. reflexivity.
  - vm_compute. reflexivity.
  - vm_compute. reflexivity.
  - vm_compute. reflexivity.
Defined.

(** C3 (as stated) fails. [/opt/env/bin/activate] is a link to a link, the
    call that obtains the object for [/opt/env] returns, and its [base] is
    then the [Guess] object of [/opt/mid], not the raw path the constructor
    had stored. And on two environments whose activation links point at
    each other, the call does not return within any budget. *)
Lemma link_to_link_base_becomes_object :
  (let built := Guess_init OneHop.e (make_guess 4 OneHop.e) "/opt/env" initial_state in
   let r := make_guess 5 OneHop.e "/opt/env" initial_state in
   fst built = Ok 0
   ∧ base <$> (heap (snd built) !! 0) = Some (BaseStr "/opt/mid")
   ∧ fst r = Ok 0
   ∧ base <$> (heap (snd r) !! 0) = Some (BaseRef 1)
   ∧ path <$> (heap (snd r) !! 1) = Some "/opt/mid")
  ∧ (∀ fuel, fst (make_guess fuel TwoCycle.e "/c/E" initial_state) = Exhausted).
Proof.
  split; [vm_compute; repeat split; reflexivity|].
  intros fuel. apply twocycle_exhausts.
Qed.

(** ** The environment predicate *)

Lemma is_conda_environment_layout env g :
  layout env g →
  is_conda_environment env g = env_at env (dirpath g).
Proof.
  intros (Hp&Hm&Hh&_). unfold is_conda_environment, env_at. cbv zeta.
  rewrite Hh, Hm, Hp.
  destruct (isdir env _); [|done]. by destruct (isfile env _).
Qed.

Lemma is_conda_environment_cached env st k id g :
  state_wf env st → GUESSES st !! k = Some id → heap st !! id = Some g →
  is_conda_environment env g =
    isdir env (posixpath.join k "conda-meta")
    && isfile env (posixpath.join (posixpath.join k "conda-meta") "history").
Proof.
  intros Hwf Hk Hg. destruct (wf_cache _ _ Hwf _ _ Hk) as (g'&Hg'&Hp).
  rewrite Hg in Hg'. injection Hg' as <-.
  destruct (wf_heap _ _ Hwf _ _ Hg) as [_ (_&Hm&Hh&_)].
  unfold is_conda_environment. rewrite Hh, Hm, Hp.
  destruct (isdir env _); [|done]. by destruct (isfile env _).
Qed.



(** ** Paths below a directory *)

Lemma string_app_cons x (a b : string) : String x a +:+ b = String x (a +:+ b).
Proof. reflexivity. Qed.

Lemma string_app_nil_l (b : string) : "" +:+ b = b.
Proof. reflexivity. Qed.

Lemma string_app_assoc (a b c : string) : (a +:+ b) +:+ c = a +:+ (b +:+ c).
Proof.
  induction a as [|x a IH]; [done|]. rewrite !string_app_cons. by rewrite IH.
Qed.

Lemma string_app_length (a b : string) :
  String.length (a +:+ b) = String.length a + String.length b.
Proof.
  induction a as [|x a IH]; [done|]. rewrite string_app_cons. cbn. by rewrite IH.
Qed.

Lemma string_app_nil_r (a : string) : a +:+ "" = a.
Proof.
  induction a as [|x a IH]; [done|]. rewrite string_app_cons. by rewrite IH.
Qed.

Lemma string_app_not_nil (a n : string) : n ≠ "" → a +:+ n ≠ "".
Proof. destruct a; [done|]. rewrite string_app_cons. discriminate. Qed.

Lemma name_ok_not_abs n : name_ok n → posixpath.startswith "/" n = false.
Proof.
  intros [Hn Hs]. destruct n as [|c n]; [done|].
  cbn in Hs. apply orb_false_iff in Hs as [Hc _].
  unfold posixpath.startswith. cbn [String.prefix].
  destruct (ascii_dec "/"%char c) as [<-|Hne]; [|done].
  by rewrite Ascii.eqb_refl in Hc.
Qed.

Lemma endswith_sep_name n : name_ok n → posixpath.endswith "/" n = false.
Proof.
  intros [Hn Hs]. induction n as [|c n IH]; [done|].
  cbn in Hs. apply orb_false_iff in Hs as [Hc Hs].
  cbn [posixpath.endswith]. apply orb_false_iff. split.
  - apply String.eqb_neq. intros [= -> ->]. by rewrite Ascii.eqb_refl in Hc.
  - destruct n as [|c' n']; [done|]. by apply IH.
Qed.

Lemma endswith_sep_app a n :
  n ≠ "" → posixpath.endswith "/" (a +:+ n) = posixpath.endswith "/" n.
Proof.
  intros Hn. induction a as [|c a IH]; [done|].
  rewrite string_app_cons. cbn [posixpath.endswith]. rewrite IH.
  replace (String.eqb (String c (a +:+ n)) "/") with false; [done|].
  symmetry. apply String.eqb_neq. intros [= _ H].
  by apply (string_app_not_nil a n).
Qed.

Lemma join_name top n : name_ok n → posixpath.join top n = with_sep top +:+ n.
Proof.
  intros Hn. unfold posixpath.join, with_sep.
  rewrite (name_ok_not_abs n Hn).
  destruct (String.eqb top "" || posixpath.endswith "/" top); [done|].
  by rewrite string_app_assoc.
Qed.

Lemma with_sep_name a n : name_ok n → with_sep (a +:+ n) = a +:+ n +:+ "/".
Proof.
  intros Hn. unfold with_sep.
  rewrite endswith_sep_app by apply Hn. rewrite (endswith_sep_name n Hn).
  replace (String.eqb (a +:+ n) "") with false; [by rewrite string_app_assoc|].
  symmetry. apply String.eqb_neq. apply string_app_not_nil, Hn.
Qed.

Lemma descends_flat names : ∀ a n,
  name_ok n → Forall name_ok names →
  descends (a +:+ n) names = a +:+ n +:+ flat names.
Proof.
  induction names as [|m names IH]; intros a n Hn Hall.
  - cbn. by rewrite string_app_nil_r.
  - inversion Hall as [|?? Hm Hall']; subst. cbn [descends fold_left flat].
    rewrite (join_name _ m Hm), (with_sep_name a n Hn).
    change (fold_left posixpath.join names ?x) with (descends x names).
    rewrite (IH (a +:+ n +:+ "/") m Hm Hall').
    by rewrite !string_app_assoc.
Qed.

Lemma descends_cons top n names :
  name_ok n → Forall name_ok names →
  descends top (n :: names) = with_sep top +:+ n +:+ flat names.
Proof.
  intros Hn Hall. cbn [descends fold_left]. rewrite (join_name _ n Hn).
  by apply (descends_flat names (with_sep top) n).
Qed.

Lemma descends_app top ns ms :
  descends top (ns ++ ms) = descends (descends top ns) ms.
Proof. unfold descends. by rewrite fold_left_app. Qed.

Lemma with_sep_length top : String.length top ≤ String.length (with_sep top).
Proof.
  unfold with_sep. destruct (_ || _); [done|]. rewrite string_app_length. lia.
Qed.

(** Two strings that agree up to their first slash. *)
Lemma split_at_first_sep n : ∀ m r s,
  has_sep n = false → has_sep m = false →
  (r = "" ∨ ∃ r', r = String "/" r') → (s = "" ∨ ∃ s', s = String "/" s') →
  n +:+ r = m +:+ s → n = m ∧ r = s.
Proof.
  induction n as [|c n IH]; intros m r s Hn Hm Hr Hs Heq.
  - destruct m as [|d m]; [done|].
    rewrite string_app_nil_l, string_app_cons in Heq. cbn in Hm.
    apply orb_false_iff in Hm as [Hd _].
    destruct Hr as [->|[r' ->]]; [done|]. injection Heq as <- _.
    by rewrite Ascii.eqb_refl in Hd.
  - destruct m as [|d m].
    + rewrite string_app_nil_l, string_app_cons in Heq. cbn in Hn.
      apply orb_false_iff in Hn as [Hc _].
      destruct Hs as [->|[s' ->]]; [done|]. injection Heq as -> _.
      by rewrite Ascii.eqb_refl in Hc.
    + rewrite !string_app_cons in Heq. cbn in Hn, Hm. injection Heq as -> Heq.
      apply orb_false_iff in Hn as [_ Hn]. apply orb_false_iff in Hm as [_ Hm].
      destruct (IH m r s Hn Hm Hr Hs Heq) as [-> ->]. done.
Qed.

Lemma flat_shape names : flat names = "" ∨ ∃ r, flat names = String "/" r.
Proof. destruct names; [by left|right]. cbn. eauto. Qed.

Lemma flat_inj ns : ∀ ms,
  Forall name_ok ns → Forall name_ok ms → flat ns = flat ms → ns = ms.
Proof.
  induction ns as [|n ns IH]; intros [|m ms] Hns Hms Heq; try done.
  inversion Hns as [|?? [_ Hn] Hns']; inversion Hms as [|?? [_ Hm] Hms']; subst.
  cbn in Heq. injection Heq as Heq.
  destruct (split_at_first_sep n m (flat ns) (flat ms) Hn Hm
              (flat_shape ns) (flat_shape ms) Heq) as [-> Hf].
  f_equal. by apply IH.
Qed.

(** A path below [top] determines the entries that lead to it. *)
Lemma descends_inj top ns ms :
  Forall name_ok ns → Forall name_ok ms →
  descends top ns = descends top ms → ns = ms.
Proof.
  intros Hns Hms Heq.
  assert (Hlen : ∀ n names, name_ok n → Forall name_ok names →
            top ≠ descends top (n :: names)).
  { intros n names Hn Hall H. rewrite (descends_cons top n names Hn Hall) in H.
    apply (f_equal String.length) in H. rewrite !string_app_length in H.
    pose proof (with_sep_length top). destruct Hn as [Hn _].
    destruct n; [done|]. cbn in H. lia. }
  destruct ns as [|n ns], ms as [|m ms]; try done.
  - inversion Hms; subst. by destruct (Hlen m ms).
  - inversion Hns; subst. symmetry in Heq. by destruct (Hlen n ns).
  - inversion Hns as [|?? Hn Hns']; inversion Hms as [|?? Hm Hms']; subst.
    rewrite (descends_cons top n ns Hn Hns'), (descends_cons top m ms Hm Hms') in Heq.
    apply (inj (String.app _)) in Heq.
    destruct (split_at_first_sep n m (flat ns) (flat ms)
                (proj2 Hn) (proj2 Hm) (flat_shape ns) (flat_shape ms) Heq) as [-> Hf].
    f_equal. by apply flat_inj.
Qed.

(** ** What [make_guess] and the callbacks add to the events: prints *)

Lemma quiet_refl st : quiet st st.
Proof. exists []. by rewrite app_nil_r. Qed.

Lemma quiet_trans st1 st2 st3 : quiet st1 st2 → quiet st2 st3 → quiet st1 st3.
Proof.
  intros (e1&H1&F1) (e2&H2&F2). exists (e1 ++ e2).
  rewrite H2, H1, app_assoc. split; [done|]. by apply Forall_app.
Qed.

Lemma quietM_same {A} (c : M A) :
  (∀ st o st', c st = (o, st') → st' = st) → quietM c.
Proof. intros H st o st' Hc. rewrite (H _ _ _ Hc). apply quiet_refl. Qed.

Lemma quietM_ret {A} (a : A) : quietM (ret a).
Proof. apply quietM_same. by intros ??? [= _ <-]. Qed.

Lemma quietM_raise {A} e : quietM (@raise A e).
Proof. apply quietM_same. by intros ??? [= _ <-]. Qed.

Lemma quietM_exhausted {A} : quietM (@exhausted A).
Proof. apply quietM_same. by intros ??? [= _ <-]. Qed.

Lemma quietM_bind {A B} (c : M A) (k : A → M B) :
  quietM c → (∀ a, quietM (k a)) → quietM (bind c k).
Proof.
  intros Hc Hk st o st' H.
  apply bind_inv in H as [(a&st1&H1&H2)|[(e'&H1&->)|[H1 ->]]]; eauto.
  eapply quiet_trans; [by eapply Hc|by eapply Hk].
Qed.

Lemma quietM_state {A} (f : State → outcome A * State) :
  (∀ st, events (f st).2 = events st) → quietM f.
Proof.
  intros H st o st' Hf. exists []. rewrite app_nil_r.
  specialize (H st). rewrite Hf in H. done.
Qed.

Lemma quietM_emit evs : Forall is_print evs → quietM (emit evs).
Proof. intros H st o st' [= _ <-]. by exists evs. Qed.

Lemma quietM_call {A} (cb : callback A) a : quietM (call cb a).
Proof.
  intros st o st'. unfold call. destruct (cb a st) as [o' out]. intros [= _ <-].
  exists (print_event <$> out). split; [done|].
  apply Forall_fmap, Forall_forall. by intros [[] l] _.
Qed.

Lemma quietM_lift {A} (r : exn + A) : quietM (lift r).
Proof. destruct r; [apply quietM_raise|apply quietM_ret]. Qed.

Lemma quietM_py_get data key : quietM (py_get data key).
Proof. destruct data; first [apply quietM_raise|apply quietM_ret]. Qed.

Lemma quietM_deref id : quietM (deref id).
Proof.
  apply quietM_same. intros st o st'. unfold deref.
  destruct (heap st !! id); by intros [= _ <-].
Qed.

Lemma quietM_cache_get p : quietM (cache_get p).
Proof.
  apply quietM_same. intros st o st'. unfold cache_get.
  destruct (GUESSES st !! p); by intros [= _ <-].
Qed.

Ltac quiet_step :=
  first
    [ apply quietM_ret | apply quietM_raise | apply quietM_exhausted
    | apply quietM_lift | apply quietM_py_get | apply quietM_deref
    | apply quietM_cache_get | apply quietM_call
    | by apply quietM_state
    | apply quietM_bind; [|intros ?] ].

Section Quiet.

Variable env : Env.

Lemma quietM_find_versions_step self vs name :
  quietM (_find_versions_step env self vs name).
Proof.
  unfold _find_versions_step.
  destruct (negb _); [quiet_step|]. destruct (negb _); [quiet_step|].
  destruct (load env _).
  - quiet_step.
  - quiet_step; [|quiet_step]. apply quietM_emit. by repeat constructor.
  - repeat quiet_step. destruct (truthy _); [destruct (hashable _)|]; quiet_step.
Qed.

Lemma quietM_find_versions_loop self names : ∀ vs,
  quietM (_find_versions_loop env self vs names).
Proof.
  induction names as [|n names IH]; intros vs; cbn; [quiet_step|].
  quiet_step; [apply quietM_find_versions_step|apply IH].
Qed.

Lemma quietM_find_versions self : quietM (_find_versions env self).
Proof.
  unfold _find_versions. destruct (is_conda_environment env self); [|quiet_step].
  repeat quiet_step. apply quietM_find_versions_loop.
Qed.

Lemma quietM_Guess_init mg d :
  (∀ p, quietM (mg p)) → quietM (Guess_init env mg d).
Proof.
  intros Hmg. unfold Guess_init. quiet_step; [by apply quietM_state|].
  quiet_step.
  { unfold _find_base. destruct (is_conda_environment env _); [|quiet_step].
    destruct (islink env _); [|destruct (isfile env _); quiet_step].
    quiet_step.
    - unfold resolve_link. repeat quiet_step. destruct (negb _); quiet_step.
    - destruct (islink env _); [quiet_step|]. quiet_step; [apply Hmg|quiet_step]. }
  quiet_step; [apply quietM_find_versions|].
  repeat quiet_step.
Qed.

Lemma quietM_make_guess fuel : ∀ d, quietM (make_guess fuel env d).
Proof.
  induction fuel as [|fuel IH]; intros d; [apply quietM_exhausted|].
  rewrite make_guess_unfold. cbv zeta.
  apply quietM_bind; [by apply quietM_state|intros st0].
  apply quietM_bind; [|intros _].
  { destruct (GUESSES _ !! _); [apply quietM_ret|].
    apply quietM_bind; [by apply quietM_Guess_init|intros g].
    by apply quietM_state. }
  apply quietM_bind; [apply quietM_cache_get|intros guess].
  apply quietM_bind; [apply quietM_deref|intros g].
  apply quietM_bind; [|intros _; apply quietM_ret].
  destruct (base g); try apply quietM_ret.
  apply quietM_bind; [apply IH|intros b].
  apply quietM_bind; [apply quietM_deref|intros g'].
  by apply quietM_state.
Qed.

End Quiet.

Lemma yielded_app e1 e2 : yielded (e1 ++ e2) = yielded e1 ++ yielded e2.
Proof. apply omap_app. Qed.

Lemma reported_app e1 e2 : reported (e1 ++ e2) = reported e1 ++ reported e2.
Proof. apply omap_app. Qed.

Lemma prints_not_yielded evs : Forall is_print evs → yielded evs = [].
Proof. induction 1 as [|[] ??]; done. Qed.

Lemma prints_not_reported evs : Forall is_print evs → reported evs = [].
Proof. induction 1 as [|[] ??]; done. Qed.

(** ** The walk *)

Section WalkFacts.

Variable env : Env.
Variable report : callback nat.
Variable onerror : callback exn.
Variable avoid : list string.

Lemma same_fields_env g g' :
  same_fields g g' → is_conda_environment env g' = is_conda_environment env g.
Proof.
  intros (_&_&Hm&Hh&_). unfold is_conda_environment. by rewrite Hm, Hh.
Qed.

Lemma seg_refl P st ok : state_wf env st → seg env P st ok st.
Proof.
  intros Hwf. split_and!; [done|apply state_ext_refl|].
  exists []. rewrite app_nil_r. split_and!; try done.
  - intros id Hid. by apply elem_of_nil in Hid.
  - intros _ p Hp. by apply elem_of_nil in Hp.
Qed.

Lemma seg_weaken (P Q : string → Prop) st ok st' :
  (∀ q, P q → Q q) → seg env P st ok st' → seg env Q st ok st'.
Proof.
  intros HPQ (Hwf&Hext&evs&He&HP&Hr&Hs). split_and!; try done.
  exists evs. split_and!; try done. eapply Forall_impl; eauto.
Qed.

Lemma seg_trans P st st1 ok st2 :
  seg env P st true st1 → seg env P st1 ok st2 → seg env P st ok st2.
Proof.
  intros (Hwf1&Hext1&e1&He1&HP1&Hr1&Hs1) (Hwf2&Hext2&e2&He2&HP2&Hr2&Hs2).
  split_and!; [done|by eapply state_ext_trans|].
  exists (e1 ++ e2). rewrite He2, He1, app_assoc, yielded_app, reported_app.
  split_and!; [done|by apply Forall_app| |].
  - intros id [Hid|Hid]%elem_of_app; [|by apply Hr2].
    destruct (Hr1 id Hid) as (g&Hg&Henv).
    destruct (ext_heap _ _ Hext2 _ _ Hg) as (g'&Hg'&Hsame&_).
    exists g'. split; [done|]. by rewrite (same_fields_env g g').
  - intros Hok p [Hp|Hp]%elem_of_app Hpe.
    + destruct (Hs1 eq_refl p Hp Hpe) as (id&Hc&Hid). exists id. split.
      * eapply lookup_weaken; [exact Hc|apply Hext2].
      * apply elem_of_app. by left.
    + destruct (Hs2 Hok p Hp Hpe) as (id&Hc&Hid). exists id. split; [done|].
      apply elem_of_app. by right.
Qed.

(** A stretch that only prints. *)
Lemma seg_quiet P st ok st' :
  state_wf env st → only_events st st' → quiet st st' → seg env P st ok st'.
Proof.
  intros Hwf Hoe (evs&He&Hp).
  split_and!; [by eapply only_events_wf|by apply only_events_ext|].
  exists evs. rewrite (prints_not_yielded evs Hp), (prints_not_reported evs Hp).
  split_and!; try done.
  - intros id Hid. by apply elem_of_nil in Hid.
  - intros _ p Hin. by apply elem_of_nil in Hin.
Qed.

(** One iteration of the loop of [survey]: it yields [dirpath], reports it
    when it is an environment, and leaves [dirnames] empty exactly when
    [prunes] says so. *)
Lemma survey_body_spec fuel dirpath dirnames st o st' :
  state_wf env st →
  survey_body env (make_guess fuel env) report avoid dirpath dirnames st = (o, st') →
  seg env (λ q, q = dirpath) st (is_ok o) st'
  ∧ ∀ dirs', o = Ok dirs' →
      dirs' = if prunes env avoid dirpath then [] else dirnames.
Proof.
  intros Hwf H. unfold survey_body in H.
  apply bind_inv in H as [([]&st0&H1&H2)|[(e'&H1&->)|[H1 ->]]]; [|discriminate..].
  injection H1 as <-.
  set (sty := {| heap := heap st; next_id := next_id st; GUESSES := GUESSES st;
                 events := events st ++ [EvYield dirpath] |}) in *.
  assert (Hwfy : state_wf env sty) by (by destruct Hwf).
  assert (Hexy : state_ext st sty).
  { apply only_events_ext. split_and!; try done. by apply prefix_app_r. }
  (* the state reached, given what happened after the yield *)
  assert (Hfin : ∀ ok stz evs,
    state_wf env stz → state_ext sty stz → events stz = events sty ++ evs →
    yielded evs = [] →
    (∀ id, id ∈ reported evs →
       ∃ g, heap stz !! id = Some g ∧ is_conda_environment env g = true) →
    (ok = true → env_at env dirpath = true →
       ∃ id, GUESSES stz !! posixpath.abspath (getcwd env) dirpath = Some id
             ∧ id ∈ reported evs) →
    seg env (λ q, q = dirpath) st ok stz).
  { intros ok stz evs Hwfz Hexz Hez Hy Hr Hs.
    split_and!; [done|by eapply state_ext_trans|].
    exists ([EvYield dirpath] ++ evs). rewrite Hez. simpl events.
    rewrite <- app_assoc, yielded_app, reported_app, Hy. simpl.
    split_and!; [done|by repeat constructor|done|].
    intros Hok p Hp Hpe. apply list_elem_of_singleton in Hp as ->. by apply Hs. }
  apply bind_inv in H2 as [(guess&st1&H1&H2)|[(e'&H1&->)|[H1 ->]]].
  - pose proof (quietM_make_guess env fuel _ _ _ _ H1) as (e1&He1&Hp1).
    apply make_guess_spec in H1 as (Hwf1&Hex1&Hok); [|done].
    destruct (Hok guess eq_refl) as (Hc&g&Hg&_).
    pose proof (is_conda_environment_cached env st1 _ guess g Hwf1 Hc Hg) as Henv.
    fold (env_at env dirpath) in Henv.
    apply bind_inv in H2 as [(g0&st1'&H3&H2)|[(e'&H3&?)|[H3 ?]]];
      unfold deref in H3; rewrite Hg in H3; try discriminate.
    injection H3 as <- <-. unfold prunes. rewrite <- Henv.
    destruct (is_conda_environment env g) eqn:Hisenv.
    + (* an environment: report and prune *)
      apply bind_inv in H2 as [([]&st2&H3&H2)|[(e'&H3&?)|[H3 ?]]]; [|discriminate..].
      injection H3 as <-.
      set (str := {| heap := heap st1; next_id := next_id st1;
                     GUESSES := GUESSES st1;
                     events := events st1 ++ [EvReport guess] |}) in *.
      assert (Hstate : ∀ o2 st3, call report guess str = (o2, st3) →
        seg env (λ q, q = dirpath) st (is_ok o2) st3).
      { intros o2 st3 Hcall.
        pose proof (call_only_events report guess str) as Hoe.
        pose proof (quietM_call report guess _ _ _ Hcall) as (e3&He3&Hp3).
        rewrite Hcall in Hoe. simpl in Hoe. destruct Hoe as (Hh&Hn&Hg3&_).
        apply (Hfin _ st3 (e1 ++ [EvReport guess] ++ e3)).
        - split; rewrite ?Hh, ?Hn, ?Hg3; apply Hwf1.
        - eapply state_ext_trans; [exact Hex1|]. apply only_events_ext.
          split_and!; try done. rewrite He3. unfold str. simpl.
          rewrite <- app_assoc. by apply prefix_app_r.
        - rewrite He3. unfold str. simpl. rewrite He1. unfold sty. simpl.
          by rewrite <- !app_assoc.
        - rewrite !yielded_app, (prints_not_yielded e1 Hp1),
            (prints_not_yielded e3 Hp3). done.
        - rewrite !reported_app, (prints_not_reported e1 Hp1),
            (prints_not_reported e3 Hp3). simpl.
          intros id ->%list_elem_of_singleton. exists g. by rewrite Hh.
        - intros _ _. exists guess. rewrite Hg3. split; [done|].
          rewrite !reported_app. apply elem_of_app. right.
          apply elem_of_app. left. simpl. by apply list_elem_of_singleton. }
      apply bind_inv in H2 as [([]&st3&H3&H2)|[(e'&H3&->)|[H3 ->]]].
      * injection H2 as <- <-. split; [by apply (Hstate (Ok ()))|].
        by intros dirs' [= <-].
      * split; [by apply (Hstate (Raise e'))|done].
      * split; [by apply (Hstate Exhausted)|done].
    + (* not an environment *)
      assert (Hseg : ∀ ok, seg env (λ q, q = dirpath) st ok st1).
      { intros ok. apply (Hfin _ st1 e1); try done.
        - by apply prints_not_yielded.
        - rewrite (prints_not_reported e1 Hp1). intros id Hid.
          by apply elem_of_nil in Hid.
        - intros _ Hpe. congruence. }
      simpl. destruct (existsb _ avoid); injection H2 as <- <-;
        (split; [apply Hseg|by intros dirs' [= <-]]).
  - pose proof (quietM_make_guess env fuel _ _ _ _ H1) as (e1&He1&Hp1).
    apply make_guess_spec in H1 as (Hwf1&Hex1&_); [|done].
    split; [|done]. apply (Hfin _ st' e1); try done.
    + by apply prints_not_yielded.
    + rewrite (prints_not_reported e1 Hp1). intros id Hid.
      by apply elem_of_nil in Hid.
  - pose proof (quietM_make_guess env fuel _ _ _ _ H1) as (e1&He1&Hp1).
    apply make_guess_spec in H1 as (Hwf1&Hex1&_); [|done].
    split; [|done]. apply (Hfin _ st' e1); try done.
    + by apply prints_not_yielded.
    + rewrite (prints_not_reported e1 Hp1). intros id Hid.
      by apply elem_of_nil in Hid.
Qed.

End WalkFacts.

Section SurveyFacts.

Variable env : Env.
Variable report : callback nat.
Variable onerror : callback exn.
Variable avoid : list string.
Hypothesis Hscan : scandir_ok env.

Lemma route_ok_top top : route_ok env avoid top top.
Proof.
  exists []. split_and!; [done|done|].
  intros n1 n2 Heq Hn2. symmetry in Heq. apply app_eq_nil in Heq as [_ ?]. done.
Qed.

Lemma route_ok_child top d q :
  name_ok d → prunes env avoid top = false →
  route_ok env avoid (posixpath.join top d) q → route_ok env avoid top q.
Proof.
  intros Hd Hp (names&Hall&->&Hpre). exists (d :: names).
  split_and!; [by constructor|done|].
  intros [|n n1] n2 Heq Hn2; [done|].
  injection Heq as <- ->. by apply (Hpre n1 n2).
Qed.

(** A stretch in which nothing is yielded or reported. *)
Lemma seg_silent P st ok st' evs :
  state_wf env st → only_events st st' → events st' = events st ++ evs →
  yielded evs = [] → reported evs = [] → seg env P st ok st'.
Proof.
  intros Hwf Hoe He Hy Hr.
  split_and!; [by eapply only_events_wf|by apply only_events_ext|].
  exists evs. rewrite Hy, Hr. split_and!; try done.
  - intros id Hid. by apply elem_of_nil in Hid.
  - intros _ p Hin. by apply elem_of_nil in Hin.
Qed.

Lemma walk_spec fuel0 fuel : ∀ top st o st',
  state_wf env st →
  walk env fuel (survey_body env (make_guess fuel0 env) report avoid)
    onerror top st = (o, st') →
  seg env (route_ok env avoid top) st (is_ok o) st'.
Proof.
  induction fuel as [|fuel IH]; intros top st o st' Hwf H.
  { injection H as <- <-. by apply seg_refl. }
  cbn [walk] in H. destruct (scandir env top) as [err|[dirs nondirs]] eqn:Hsc.
  - (* the listing failed: onerror, and the walk of [top] is over *)
    apply bind_inv in H as [([]&ste&H1&H2)|[(e'&H1&?)|[H1 ?]]]; [|discriminate..].
    injection H1 as <-.
    set (ste := {| heap := heap st; next_id := next_id st;
                   GUESSES := GUESSES st;
                   events := events st ++ [EvOnError err] |}) in *.
    pose proof (call_only_events onerror err ste) as Hoe.
    pose proof (quietM_call onerror err _ _ _ H2) as (e3&He3&Hp3).
    rewrite H2 in Hoe. simpl in Hoe. destruct Hoe as (Hh&Hn&Hg&_).
    apply (seg_silent _ _ _ _ ([EvOnError err] ++ e3)); try done.
    + split_and!; try done. rewrite He3. simpl. rewrite <- app_assoc.
      by apply prefix_app_r.
    + rewrite He3. simpl. by rewrite <- app_assoc.
    + rewrite yielded_app. simpl. by apply prints_not_yielded.
    + rewrite reported_app. simpl. by apply prints_not_reported.
  - (* the loop over the directories the body left in [dirnames] *)
    assert (Hloop : ∀ l, Forall name_ok l →
      (l ≠ [] → prunes env avoid top = false) →
      ∀ s1 o2 s2, state_wf env s1 →
      for_each
        (walk_child env
           (walk env fuel (survey_body env (make_guess fuel0 env) report avoid)
              onerror) top) l s1 = (o2, s2) →
      seg env (route_ok env avoid top) s1 (is_ok o2) s2).
    { induction l as [|d l IHl]; intros Hall Hne s1 o2 s2 Hwf1 Hl.
      { injection Hl as <- <-. by apply seg_refl. }
      inversion Hall as [|?? Hd Hall']; subst.
      assert (Hchild : ∀ o3 s3,
        walk_child env
          (walk env fuel (survey_body env (make_guess fuel0 env) report avoid)
             onerror) top d s1 = (o3, s3) →
        seg env (route_ok env avoid top) s1 (is_ok o3) s3).
      { intros o3 s3 Hc. unfold walk_child in Hc. cbv zeta in Hc.
        destruct (islink env _).
        - injection Hc as <- <-. by apply seg_refl.
        - eapply seg_weaken; [|by eapply IH].
          intros q. apply route_ok_child; [done|by apply Hne]. }
      cbn [for_each] in Hl.
      apply bind_inv in Hl as [([]&s3&H1&H2)|[(e'&H1&->)|[H1 ->]]].
      - pose proof (Hchild _ _ H1) as Hseg1.
        eapply seg_trans; [exact Hseg1|].
        apply IHl; [done| |by destruct Hseg1|done].
        intros _. by apply Hne.
      - by apply (Hchild (Raise e')).
      - by apply (Hchild Exhausted). }
    apply bind_inv in H as [(dirs'&st1&H1&H2)|[(e'&H1&->)|[H1 ->]]];
      apply survey_body_spec in H1 as [Hseg Hdirs]; try done;
      apply (seg_weaken env _ (route_ok env avoid top)) in Hseg;
      try (intros q ->; apply route_ok_top); try done.
    eapply seg_trans; [exact Hseg|].
    rewrite (Hdirs dirs' eq_refl) in H2.
    destruct (prunes env avoid top) eqn:Hpr.
    + apply (Hloop []); [done|done|by destruct Hseg|done].
    + apply (Hloop dirs); [by eapply Hscan|done|by destruct Hseg|done].
Qed.

Lemma survey_spec fuel start st o st' :
  state_wf env st →
  survey env fuel start report onerror avoid st = (o, st') →
  seg env (route_ok env avoid start) st (is_ok o) st'.
Proof. apply walk_spec. Qed.

End SurveyFacts.


(** ** The tree filesystem lists entry names *)

Lemma name_okb_ok n : name_okb n = true → name_ok n.
Proof.
  unfold name_okb. intros [H1 H2]%andb_true_iff. split.
  - apply negb_true_iff, String.eqb_neq in H1. done.
  - by apply negb_true_iff in H2.
Qed.

Lemma node_ok_entries r entries :
  node_ok (TreeFS.Dir r entries) = true →
  Forall name_ok (fst <$> entries)
  ∧ ∀ name child, TreeFS.assoc name entries = Some child → node_ok child = true.
Proof.
  cbn [node_ok]. induction entries as [|[n c] es IH].
  - intros _. split; [constructor|]. intros ???; discriminate.
  - intros [[Hn Hc]%andb_true_iff Hes]%andb_true_iff.
    destruct (IH Hes) as [IH1 IH2]. split.
    + constructor; [by apply name_okb_ok|done].
    + intros name child. cbn [TreeFS.assoc].
      destruct (String.eqb n name); [by intros [= <-]|apply IH2].
Qed.

Lemma node_ok_get root : ∀ loc n,
  node_ok root = true → TreeFS.get root loc = Some n → node_ok n = true.
Proof.
  intros loc. revert root. induction loc as [|name loc IH]; intros root n Hok.
  - by intros [= <-].
  - cbn [TreeFS.get]. destruct root as [c|r entries|t]; try done.
    destruct (TreeFS.assoc name entries) as [child|] eqn:Ha; [|done].
    apply IH. by apply (node_ok_entries r entries Hok) in Ha.
Qed.

Lemma tree_scandir_ok root cwd :
  node_ok root = true → scandir_ok (TreeFS.env root cwd).
Proof.
  intros Hok p dirs nondirs. cbn [scandir TreeFS.env].
  unfold TreeFS.tree_scandir, TreeFS.tree_listdir, TreeFS.stat.
  destruct p as [|c p']; [done|].
  destruct (TreeFS.locate root cwd true (String c p')) as [loc|]; [|done].
  cbn [mbind option_bind].
  destruct (TreeFS.get root loc) as [[?|[] entries|?]|] eqn:Hget; try done.
  intros [= <- _]. apply node_ok_get in Hget; [|done].
  apply node_ok_entries in Hget as [Hall _].
  rewrite Forall_forall in Hall |- *.
  intros n [_ Hn]%list_elem_of_filter. by apply Hall.
Qed.


(** ** Objects over a whole run *)

Section RunFacts.

Variable env : Env.

Lemma for_each_ext {A} (f : A → M unit) (l : list A) :
  (∀ a st o st', state_wf env st → f a st = (o, st') →
     state_wf env st' ∧ state_ext st st') →
  ∀ st o st', state_wf env st → for_each f l st = (o, st') →
     state_wf env st' ∧ state_ext st st'.
Proof.
  intros Hf. induction l as [|a l IH]; intros st o st' Hwf H.
  { injection H as <- <-. split; [done|apply state_ext_refl]. }
  cbn [for_each] in H.
  apply bind_inv in H as [([]&st1&H1&H2)|[(e'&H1&->)|[H1 ->]]];
    apply Hf in H1 as [Hwf1 Hex1]; try done.
  apply IH in H2 as [Hwf2 Hex2]; [|done].
  split; [done|by eapply state_ext_trans].
Qed.

Lemma walk_ext fuel0 report onerror avoid fuel : ∀ top st o st',
  state_wf env st →
  walk env fuel (survey_body env (make_guess fuel0 env) report avoid)
    onerror top st = (o, st') →
  state_wf env st' ∧ state_ext st st'.
Proof.
  induction fuel as [|fuel IH]; intros top st o st' Hwf H.
  { injection H as <- <-. split; [done|apply state_ext_refl]. }
  cbn [walk] in H. destruct (scandir env top) as [err|[dirs nondirs]].
  - apply bind_inv in H as [([]&ste&H1&H2)|[(e'&H1&?)|[H1 ?]]]; [|discriminate..].
    injection H1 as <-.
    match type of H2 with call _ _ ?s = _ =>
      pose proof (call_only_events onerror err s) as Hoe end.
    rewrite H2 in Hoe. simpl in Hoe.
    assert (Hoe' : only_events st st').
    { destruct Hoe as (Hh&Hn&Hg&He). split_and!; try done.
      etrans; [|exact He]. simpl. by apply prefix_app_r. }
    split; [by eapply only_events_wf|by apply only_events_ext].
  - apply bind_inv in H as [(dirs'&st1&H1&H2)|[(e'&H1&->)|[H1 ->]]];
      apply survey_body_spec in H1 as [(Hwf1&Hex1&_) _]; try done.
    eapply for_each_ext in H2 as [Hwf2 Hex2]; [| |done].
    + split; [done|by eapply state_ext_trans].
    + intros d s1 o1 s1' Hw Hc. unfold walk_child in Hc. cbv zeta in Hc.
      destruct (islink env _); [|by eapply IH].
      injection Hc as <- <-. split; [done|apply state_ext_refl].
Qed.

Lemma main_ext fuel report starts st o st' :
  state_wf env st →
  main env fuel report starts st = (o, st') →
  state_wf env st' ∧ state_ext st st'.
Proof.
  intros Hwf H. unfold main in H. eapply for_each_ext in H; [done| |done].
  intros start s1 o1 s1' Hw Hs. by eapply walk_ext.
Qed.

End RunFacts.

(** C6 (as amended): from any state of a run, whatever [make_guess],
    [survey] or [main] goes on to do, and however it ends, an object
    already constructed stays on the heap with its [dirpath], [path],
    [meta_dir], [history_file], [bin_dir], [activate_file] and [versions]
    as they are; its [base] stays too, unless it is a raw path, which
    [make_guess] may replace by the object for that path. Whether the
    directory is an environment is not an attribute: each call of
    [is_conda_environment] probes the filesystem again. *)
Theorem guess_attributes_stable env st :
  state_wf env st →
  let stable st' :=
    ∀ id g, heap st !! id = Some g →
      ∃ g', heap st' !! id = Some g' ∧ same_fields g g'
            ∧ base_step (base g) (base g') in
  (∀ fuel d o st', make_guess fuel env d st = (o, st') → stable st')
  ∧ (∀ fuel start report onerror avoid o st',
       survey env fuel start report onerror avoid st = (o, st') → stable st')
  ∧ (∀ fuel report starts o st',
       main env fuel report starts st = (o, st') → stable st').
Proof.
  intros Hwf stable. split_and!.
  - intros fuel d o st' H. apply make_guess_spec in H as (_&Hext&_); [|done].
    exact (ext_heap _ _ Hext).
  - intros fuel start report onerror avoid o st' H.
    apply walk_ext in H as [_ Hext]; [|done]. exact (ext_heap _ _ Hext).
  - intros fuel report starts o st' H.
    apply main_ext in H as [_ Hext]; [|done]. exact (ext_heap _ _ Hext).
Qed.

Lemma guess_attributes_stable_witness :
  let st := snd (Guess_init OneHop.e (make_guess 4 OneHop.e) "/opt/env" initial_state) in
  let stable st' :=
    ∀ id g, heap st !! id = Some g →
      ∃ g', heap st' !! id = Some g' ∧ same_fields g g'
            ∧ base_step (base g) (base g') in
  (∀ fuel d o st', make_guess fuel OneHop.e d st = (o, st') → stable st')
  ∧ (∀ fuel start report onerror avoid o st',
       survey OneHop.e fuel start report onerror avoid st = (o, st') → stable st')
  ∧ (∀ fuel report starts o st',
       main OneHop.e fuel report starts st = (o, st') → stable st').
Proof.
  intros st. apply (guess_attributes_stable OneHop.e st).
  unfold st.
  destruct (Guess_init OneHop.e (make_guess 4 OneHop.e) "/opt/env" initial_state)
    as [o st1] eqn:Hinit.
  apply Guess_init_spec in Hinit as (Hwf&_); [exact Hwf|..].
  - apply make_guess_spec.
  - apply initial_state_wf.
Defined.

(** C6 (as stated) fails. The object for [/opt/env] leaves its constructor
    with a raw path in [base]; [make_guess] then assigns the object of
    [/opt/mid] to it. And the cached object does not hold the answer of
    [is_conda_environment]: asked again after the history file went away,
    it says no. *)
Lemma cached_guess_is_mutated :
  let built := Guess_init OneHop.e (make_guess 4 OneHop.e) "/opt/env" initial_state in
  let r := make_guess 5 OneHop.e "/opt/env" initial_state in
  base <$> (heap (snd built) !! 0) = Some (BaseStr "/opt/mid")
  ∧ GUESSES (snd r) !! "/opt/env" = Some 0
  ∧ base <$> (heap (snd r) !! 0) = Some (BaseRef 1)
  ∧ is_conda_environment OneHop.e <$> (heap (snd r) !! 0) = Some true
  ∧ is_conda_environment Changed.e <$> (heap (snd r) !! 0) = Some false.
Proof. vm_compute. repeat split; reflexivity. Qed.

(** ** Errors during the walk *)

(** C9 (as amended): an error of the directory listing that [os.walk]
    makes goes to [onerror], and when [onerror] returns the walk goes on
    with the directories that remain; an exception raised in the body of
    the loop of [survey], by [make_guess] or by [report], is not caught:
    it ends the walk of that directory and of every directory still to
    come. *)
Theorem walk_listing_errors_only env fuel body onerror top :
  (∀ d rest err out st,
     islink env (posixpath.join top d) = false →
     scandir env (posixpath.join top d) = inl err →
     onerror err (snd (emit [EvOnError err] st)) = (Ok tt, out) →
     for_each (walk_child env (walk env (S fuel) body onerror) top) (d :: rest) st
     = for_each (walk_child env (walk env (S fuel) body onerror) top) rest
         (snd (emit (EvOnError err :: (print_event <$> out)) st)))
  ∧ (∀ dirs nondirs x st st1,
       scandir env top = inr (dirs, nondirs) →
       body top dirs st = (Raise x, st1) →
       walk env (S fuel) body onerror top st = (Raise x, st1))
  ∧ (∀ d rest x st st1,
       walk_child env (walk env (S fuel) body onerror) top d st = (Raise x, st1) →
       for_each (walk_child env (walk env (S fuel) body onerror) top)
         (d :: rest) st = (Raise x, st1)).
Proof.
  split_and!.
  - intros d rest err out st Hlink Hscan Hcb.
    cbn [for_each]. unfold bind at 1. unfold walk_child at 1. cbv zeta.
    rewrite Hlink. cbn [walk]. rewrite Hscan.
    unfold bind at 1. cbn [emit]. unfold call.
    cbn [emit snd] in Hcb. rewrite Hcb. cbn [emit events heap next_id GUESSES snd].
    by rewrite <- app_assoc.
  - intros dirs nondirs x st st1 Hscan Hbody.
    cbn [walk]. rewrite Hscan. unfold bind. by rewrite Hbody.
  - intros d rest x st st1 Hc. cbn [for_each]. unfold bind. by rewrite Hc.
Qed.

Lemma walk_listing_errors_only_witness :
  let e := Unreadable.e in
  let body := survey_body e (make_guess 5 e) report_print PATHOLOGICAL_DIRS in
  let msg := "[Errno 13] Permission denied: /r/locked" in
  for_each (walk_child e (walk e 5 body _print_stderr) "/r")
    ["locked"; "a"; "b"] initial_state
  = for_each (walk_child e (walk e 5 body _print_stderr) "/r") ["a"; "b"]
      (snd (emit [EvOnError (OSError msg); EvStderr msg] initial_state)).
Proof.
  intros e body msg.
  apply (proj1 (walk_listing_errors_only e 4 body _print_stderr "/r")
           "locked" ["a"; "b"] (OSError msg) [(stderr, msg)] initial_state).
  - vm_compute. reflexivity.
  - vm_compute. reflexivity.
  - reflexivity.
Defined.

(** C9 (as stated) fails. In [/r] the directory [locked] cannot be listed:
    [onerror] is called and the walk goes on. Then [make_guess] of the
    environment [/r/a] opens a metadata file it may not read; that error
    is a filesystem error, not a parse error, it does not reach [onerror],
    and it ends the survey before [/r/b] is looked at. *)
Lemma unreadable_metadata_aborts_survey :
  let r := survey Unreadable.e 5 "/r" report_print _print_stderr
             PATHOLOGICAL_DIRS initial_state in
  fst r = Raise (OSError "[Errno 13] Permission denied: /r/a/conda-meta/conda-4.9.0.json")
  ∧ yielded (events (snd r)) = ["/r"; "/r/a"]
  ∧ onerrors (events (snd r)) = [OSError "[Errno 13] Permission denied: /r/locked"]
  ∧ reported (events (snd r)) = [].
Proof. vm_compute. repeat split; reflexivity. Qed.

(** ** Version extraction *)

Lemma items_get_absent items key :
  has_key items key = false → items_get items key = PNone.
Proof.
  induction items as [|[k v] items IH]; [done|]. cbn.
  intros [Hk Hr]%orb_false_iff. rewrite Hk. by apply IH.
Qed.

Lemma dict_get_set vs k v d :
  key_eqb k k = true → dict_get (dict_set vs k v) k d = v.
Proof.
  intros Hk. induction vs as [|[k' v'] vs IH]; cbn.
  - by rewrite Hk.
  - destruct (key_eqb k' k) eqn:Hkk; cbn; by rewrite Hkk.
Qed.

(** C7 (as amended): for a metadata entry whose name ends in [.json] and
    begins with a tracked prefix, and whose file holds a JSON object,
    [versions[name] = version] is recorded exactly when the [name] field is
    there and true as a Python value (not empty, not null); [version] is
    taken as it is, and is [None] when the field is absent. Without a
    [name] field nothing is recorded. *)
Theorem find_versions_step_tracked env self versions meta_name items st :
  posixpath.endswith ".json" meta_name = true →
  existsb (λ p, posixpath.startswith p meta_name) PACKAGES_FOR_GUESS_VERSIONS = true →
  load env (posixpath.join (meta_dir self) meta_name) = Loaded (PDict items) →
  hashable (items_get items "name") = true →
  let name := items_get items "name" in
  let version := items_get items "version" in
  _find_versions_step env self versions meta_name st
  = (Ok (if truthy name then dict_set versions name version else versions), st)
  ∧ (has_key items "name" = false → truthy name = false)
  ∧ (has_key items "version" = false → version = PNone).
Proof.
  intros Hjson Htracked Hload Hhash name version. split_and!.
  - unfold _find_versions_step. rewrite Hjson, Htracked, Hload. cbn [negb].
    unfold py_get, bind, ret. subst name version.
    destruct (truthy _); [|done]. by rewrite Hhash.
  - intros H. unfold name. by rewrite (items_get_absent _ _ H).
  - intros H. by apply items_get_absent.
Qed.

Lemma find_versions_step_tracked_witness :
  let self := Guess_attrs NoVersion.e "/envs/py" in
  _find_versions_step NoVersion.e self [] "python-3.9.0-h.json" initial_state
  = (Ok [(PStr "python", PNone)], initial_state)
  ∧ _find_versions_step NoVersion.e self [] "conda-4.9.0.json" initial_state
    = (Ok [], initial_state).
Proof.
  intros self. split.
  - apply (find_versions_step_tracked NoVersion.e self [] "python-3.9.0-h.json"
             [("name", PStr "python")] initial_state);
      vm_compute; reflexivity.
  - apply (find_versions_step_tracked NoVersion.e self [] "conda-4.9.0.json"
             [("version", PStr "4.9.0")] initial_state);
      vm_compute; reflexivity.
Defined.

(** C7 (as stated) fails: the python metadata has a [name] and no
    [version], and an entry is recorded for it all the same, with [None] as
    the version. *)
Lemma name_without_version_is_recorded :
  let r := make_guess 3 NoVersion.e "/envs/py" initial_state in
  fst r = Ok 0
  ∧ versions <$> (heap (snd r) !! 0) = Some [(PStr "python", PNone)].
Proof. vm_compute. repeat split; reflexivity. Qed.



(** The run on that tree, reporting for Jira. *)
Example missing_version_run :
  let r := main NoVersion.e 5 jira ["/envs"] initial_state in
  fst r = Raise (AttributeError "startswith")
  ∧ yielded (events (snd r)) = ["/envs"; "/envs/py"]
  ∧ reported (events (snd r)) = [1]
  ∧ stdout_lines (events (snd r)) = [].
Proof. vm_compute. repeat split; reflexivity. Qed.

(** ** A metadata file that does not parse *)

Section Malformed.

Variable env : Env.
Variable self : Guess.

Lemma _find_versions_step_fine vs meta_name st :
  loads_fine env self meta_name →
  ∃ vs', _find_versions_step env self vs meta_name st = (Ok vs', st).
Proof.
  unfold loads_fine, tracked, _find_versions_step.
  intros [Hun|(items&Hload&Hhash)].
  - destruct (posixpath.endswith _ _); [|by eexists].
    cbn [andb] in Hun. rewrite Hun. by eexists.
  - destruct (negb (posixpath.endswith _ _)); [by eexists|].
    destruct (negb (existsb _ _)); [by eexists|].
    rewrite Hload. unfold py_get, bind, ret.
    destruct (truthy _); [|by eexists]. rewrite Hhash. by eexists.
Qed.

Lemma _find_versions_loop_fine pre rest : ∀ vs st,
  Forall (loads_fine env self) pre →
  ∃ vs', _find_versions_loop env self vs (pre ++ rest) st
         = _find_versions_loop env self vs' rest st.
Proof.
  induction pre as [|n pre IH]; intros vs st Hall; [by exists vs|].
  inversion Hall as [|?? Hn Hall']; subst.
  destruct (_find_versions_step_fine vs n st Hn) as (vs1&Hstep).
  destruct (IH vs1 st Hall') as (vs2&Hloop). exists vs2.
  cbn [app _find_versions_loop]. unfold bind at 1. by rewrite Hstep.
Qed.

Lemma _find_versions_step_malformed vs bad x st :
  tracked bad = true →
  load env (posixpath.join (meta_dir self) bad) = Malformed x →
  _find_versions_step env self vs bad st
  = (Raise x,
     snd (emit [EvStderr ("!! meta_file: " +:+ posixpath.join (meta_dir self) bad)] st)).
Proof.
  unfold tracked. intros [Hj Ht]%andb_true_iff Hload.
  unfold _find_versions_step. by rewrite Hj, Ht, Hload.
Qed.

Lemma _find_versions_malformed pre bad post x st :
  is_conda_environment env self = true →
  listdir env (meta_dir self) = inr (pre ++ bad :: post) →
  Forall (loads_fine env self) pre →
  tracked bad = true →
  load env (posixpath.join (meta_dir self) bad) = Malformed x →
  _find_versions env self st
  = (Raise x,
     snd (emit [EvStderr ("!! meta_file: " +:+ posixpath.join (meta_dir self) bad)] st)).
Proof.
  intros Henv Hlist Hpre Hbad Hload. unfold _find_versions.
  rewrite Henv, Hlist. unfold bind at 1. cbn [lift ret].
  destruct (_find_versions_loop_fine pre (bad :: post) [] st Hpre) as (vs&->).
  cbn [_find_versions_loop]. unfold bind at 1.
  by rewrite (_find_versions_step_malformed vs bad x st Hbad Hload).
Qed.

End Malformed.

(** C8: take an environment that is not cached yet, whose base resolution
    returns, and whose metadata directory lists, after entries that load, a
    tracked entry that [json.load] rejects. Then [make_guess] prints the
    path of that file on the standard error and raises the error of
    [json.load]; the file is neither skipped nor given default values.
    When the directory is one that [main] was asked to
    survey, the error goes up through [survey] and [main]: the run ends
    with it, and the start directories still to come are not looked at. *)
Theorem malformed_metadata_is_fatal env fuel d st0 pre bad post x b stb :
  let self := Guess_attrs env d in
  let meta_file := posixpath.join (meta_dir self) bad in
  let st' := snd (emit [EvStderr ("!! meta_file: " +:+ meta_file)] stb) in
  GUESSES st0 !! path self = None →
  is_conda_environment env self = true →
  _find_base env (make_guess fuel env) (next_id st0) self (snd (alloc st0))
  = (Ok b, stb) →
  listdir env (meta_dir self) = inr (pre ++ bad :: post) →
  Forall (loads_fine env self) pre →
  tracked bad = true →
  load env meta_file = Malformed x →
  make_guess (S fuel) env d st0 = (Raise x, st')
  ∧ ∀ st report rest dirs nondirs,
      st0 = snd (emit [EvYield d] st) →
      scandir env d = inr (dirs, nondirs) →
      main env (S fuel) report (d :: rest) st = (Raise x, st').
Proof.
  intros self meta_file st' Hc Henv Hbase Hlist Hpre Hbad Hload.
  assert (Hmg : make_guess (S fuel) env d st0 = (Raise x, st')).
  { rewrite make_guess_unfold. cbv zeta.
    unfold bind at 1. unfold get_state.
    change (posixpath.abspath (getcwd env) d) with (path self). rewrite Hc.
    unfold bind at 1. unfold bind at 1. unfold Guess_init.
    unfold bind at 1. fold self. unfold alloc at 1. unfold bind at 1.
    unfold alloc in Hbase. cbn [snd] in Hbase. rewrite Hbase.
    unfold bind at 1.
    by rewrite (_find_versions_malformed env self pre bad post x stb
                  Henv Hlist Hpre Hbad Hload). }
  split; [done|].
  intros st report rest dirs nondirs Hst Hscan.
  unfold main. cbn [for_each]. unfold bind at 1. unfold survey.
  cbn [walk]. rewrite Hscan. unfold bind at 1. unfold survey_body.
  unfold bind at 1. unfold emit at 1. unfold bind at 1.
  unfold emit in Hst. cbn [snd] in Hst. rewrite <- Hst. by rewrite Hmg.
Qed.

Lemma malformed_metadata_is_fatal_witness :
  let st' := {| heap := ∅; next_id := 1; GUESSES := ∅;
                events := [EvYield "/envs/bad";
                           EvStderr "!! meta_file: /envs/bad/conda-meta/python-3.9.0-h.json"] |} in
  let x := ValueError "Expecting value: line 1 column 1 (char 0)" in
  make_guess 5 Corrupt.e "/envs/bad"
    (snd (emit [EvYield "/envs/bad"] initial_state)) = (Raise x, st')
  ∧ main Corrupt.e 5 print ["/envs/bad"; "/envs/good"] initial_state = (Raise x, st').
Proof.
  intros st' x.
  destruct (malformed_metadata_is_fatal Corrupt.e 4 "/envs/bad"
              (snd (emit [EvYield "/envs/bad"] initial_state))
              ["history"; "conda-4.9.0.json"; "zlib-1.2.json"]
              "python-3.9.0-h.json" [] x (BaseRef 0)
              {| heap := ∅; next_id := 1; GUESSES := ∅;
                 events := [EvYield "/envs/bad"] |}) as [Hmg Hmain].
  - reflexivity.
  - vm_compute. reflexivity.
  - vm_compute. reflexivity.
  - vm_compute. reflexivity.
  - constructor; [|constructor; [|constructor; [|constructor]]].
    + left. vm_compute. reflexivity.
    + right. exists [("name", PStr "conda"); ("version", PStr "4.9.0")].
      split; vm_compute; reflexivity.
    + left. vm_compute. reflexivity.
  - vm_compute. reflexivity.
  - vm_compute. reflexivity.
  - split; [exact Hmg|].
    apply (Hmain initial_state print ["/envs/good"] ["conda-meta"; "bin"] []).
    + reflexivity.
    + vm_compute. reflexivity.
Defined.

(** * Further properties of the program *)

(** ** What [make_guess] returns *)

(** X1: the object [make_guess] returns for [dirpath] carries the absolute
    path of [dirpath] and the four paths [__init__] derives from it; its
    [dirpath] is the spelling of the first request for that path, which has
    the same absolute path. *)
Theorem make_guess_returns_laid_out env fuel d st id st' :
  state_wf env st →
  make_guess fuel env d st = (Ok id, st') →
  let p := posixpath.abspath (getcwd env) d in
  ∃ g, heap st' !! id = Some g
    ∧ path g = p
    ∧ posixpath.abspath (getcwd env) (dirpath g) = p
    ∧ meta_dir g = posixpath.join p "conda-meta"
    ∧ history_file g = posixpath.join (posixpath.join p "conda-meta") "history"
    ∧ bin_dir g = posixpath.join p "bin"
    ∧ activate_file g = posixpath.join (posixpath.join p "bin") "activate".
Proof.
  intros Hwf H p.
  apply make_guess_spec in H as (Hwf'&_&Hok); [|done].
  destruct (Hok id eq_refl) as [Hc _].
  destruct (wf_cache _ _ Hwf' _ _ Hc) as (g&Hg&Hp).
  destruct (wf_heap _ _ Hwf' _ _ Hg) as [_ (Hl1&Hl2&Hl3&Hl4&Hl5)].
  exists g. fold p in Hp. rewrite Hl5, Hl4, Hl3, Hl2, Hp. rewrite Hp in Hl1.
  by split_and!.
Qed.

Lemma make_guess_returns_laid_out_witness :
  let st1 := snd (make_guess 3 Alias.e "/r/real" initial_state) in
  ∃ g, heap (snd (make_guess 2 Alias.e "r/real/" st1)) !! 0 = Some g
    ∧ path g = "/r/real"
    ∧ posixpath.abspath "/" (dirpath g) = "/r/real"
    ∧ meta_dir g = "/r/real/conda-meta"
    ∧ history_file g = "/r/real/conda-meta/history"
    ∧ bin_dir g = "/r/real/bin"
    ∧ activate_file g = "/r/real/bin/activate".
Proof.
  intros st1.
  apply (make_guess_returns_laid_out Alias.e 2 "r/real/" st1 0
           (snd (make_guess 2 Alias.e "r/real/" st1))).
  - unfold st1.
    destruct (make_guess 3 Alias.e "/r/real" initial_state) as [o s] eqn:H.
    apply make_guess_spec in H as (Hwf&_); [exact Hwf|apply initial_state_wf].
  - vm_compute. reflexivity.
Defined.

(** X2: two requests of a run that return the same object were made for
    the same absolute path: an object is never shared between two paths. *)
Theorem make_guess_same_object_same_path
    env fuel1 fuel2 d1 d2 st st1 st2 st2' id :
  state_wf env st →
  make_guess fuel1 env d1 st = (Ok id, st1) →
  state_ext st1 st2 → state_wf env st2 →
  make_guess fuel2 env d2 st2 = (Ok id, st2') →
  posixpath.abspath (getcwd env) d1 = posixpath.abspath (getcwd env) d2.
Proof.
  intros Hwf H1 Hext Hwf2 H2.
  apply make_guess_spec in H1 as (_&_&Hok1); [|done].
  apply make_guess_spec in H2 as (Hwf2'&Hext2&Hok2); [|done].
  destruct (Hok1 id eq_refl) as [Hc1 _]. destruct (Hok2 id eq_refl) as [Hc2 _].
  assert (Hc1' : GUESSES st2' !! posixpath.abspath (getcwd env) d1 = Some id).
  { eapply lookup_weaken; [|apply Hext2]. eapply lookup_weaken; [exact Hc1|apply Hext]. }
  destruct (wf_cache _ _ Hwf2' _ _ Hc1') as (g1&Hg1&Hp1).
  destruct (wf_cache _ _ Hwf2' _ _ Hc2) as (g2&Hg2&Hp2).
  congruence.
Qed.

Lemma make_guess_same_object_same_path_witness :
  posixpath.abspath (getcwd Alias.e) "./r/real"
  = posixpath.abspath (getcwd Alias.e) "r//real/.".
Proof.
  pose (st1 := snd (make_guess 3 Alias.e "./r/real" initial_state)).
  assert (Hwf1 : state_wf Alias.e st1).
  { unfold st1.
    destruct (make_guess 3 Alias.e "./r/real" initial_state) as [o s] eqn:H.
    apply make_guess_spec in H as (Hwf&_); [exact Hwf|apply initial_state_wf]. }
  apply (make_guess_same_object_same_path Alias.e 3 2 "./r/real" "r//real/."
           initial_state st1 st1 (snd (make_guess 2 Alias.e "r//real/." st1)) 0).
  - apply initial_state_wf.
  - vm_compute. reflexivity.
  - apply state_ext_refl.
  - exact Hwf1.
  - vm_compute. reflexivity.
Defined.

(** ** Directories whose activation file is not a link *)

Lemma _find_base_no_link env mg self_id self st :
  islink env (activate_file self) = false →
  _find_base env mg self_id self st
  = (Ok (if is_conda_environment env self && isfile env (activate_file self)
         then BaseRef self_id else BaseNone), st).
Proof.
  intros Hlink. unfold _find_base. rewrite Hlink.
  destruct (is_conda_environment env self); [|done].
  by destruct (isfile env (activate_file self)).
Qed.

Lemma _find_versions_step_returns env self vs name st :
  fst (_find_versions_step env self vs name st) ≠ Exhausted.
Proof.
  unfold _find_versions_step.
  destruct (negb _); [done|]. destruct (negb _); [done|].
  destruct (load env _) as [e|e|data]; try done.
  unfold bind, py_get. destruct data; try done.
  cbn. destruct (truthy _); [destruct (hashable _)|]; done.
Qed.

Lemma _find_versions_loop_returns env self names : ∀ vs st,
  fst (_find_versions_loop env self vs names st) ≠ Exhausted.
Proof.
  induction names as [|n names IH]; intros vs st; [done|].
  cbn [_find_versions_loop]. unfold bind.
  pose proof (_find_versions_step_returns env self vs n st) as Hs.
  destruct (_find_versions_step env self vs n st) as [[vs'|e|] st1];
    [apply IH|done|done].
Qed.

Lemma _find_versions_returns env self st :
  fst (_find_versions env self st) ≠ Exhausted.
Proof.
  unfold _find_versions. destruct (is_conda_environment env self); [|done].
  unfold bind. destruct (listdir env _) as [e|names]; [done|].
  apply _find_versions_loop_returns.
Qed.

(** What a request for an uncached directory without activation link
    comes to, whatever the budget above zero. *)
Lemma make_guess_no_link_eq env fuel d st :
  let self := Guess_attrs env d in
  let b0 := if is_conda_environment env self && isfile env (activate_file self)
            then BaseRef (next_id st) else BaseNone in
  GUESSES st !! path self = None →
  islink env (activate_file self) = false →
  make_guess (S fuel) env d st
  = match _find_versions env self (snd (alloc st)) with
    | (Ok v, stv) =>
        (Ok (next_id st),
         {| heap := <[next_id st := set_versions v (set_base b0 self)]> (heap stv);
            next_id := next_id stv;
            GUESSES := <[path self := next_id st]> (GUESSES stv);
            events := events stv |})
    | (Raise e, stv) => (Raise e, stv)
    | (Exhausted, stv) => (Exhausted, stv)
    end.
Proof.
  intros self b0 Hc Hlink. rewrite make_guess_unfold. cbv zeta.
  change (posixpath.abspath (getcwd env) d) with (path self).
  unfold bind at 1. unfold get_state. rewrite Hc.
  unfold bind at 1. unfold bind at 1. unfold Guess_init.
  unfold bind at 1. fold self. unfold alloc at 1. unfold bind at 1.
  rewrite (_find_base_no_link env _ _ self _ Hlink). fold b0.
  unfold bind at 1. unfold alloc.  cbn [snd].
  destruct (_find_versions env self _) as [[v|e|] stv]; try done.
  unfold bind at 1. unfold store at 1. unfold ret at 1. unfold cache_set at 1.
  cbn [heap next_id GUESSES events].
  unfold bind at 1. unfold cache_get at 1. cbn [GUESSES].
  rewrite lookup_insert_eq.
  unfold bind at 1. unfold deref at 1. cbn [heap]. rewrite lookup_insert_eq.
  unfold bind at 1. cbn [base set_versions set_base].
  subst b0. by destruct (_ && _).
Qed.

(** X3: for a directory that is not cached and whose [bin/activate] is not
    a symbolic link, [make_guess] makes no recursive request: any budget
    above zero gives the same result, and the budget is never exhausted.
    When it returns, the object is new; its [base] is the object itself
    when the directory is an environment with a regular [bin/activate], and
    [None] otherwise; and for a directory that is not an environment
    [versions] is empty and nothing was printed. *)
Theorem make_guess_without_activation_link env fuel d st :
  let self := Guess_attrs env d in
  GUESSES st !! path self = None →
  islink env (activate_file self) = false →
  make_guess (S fuel) env d st = make_guess 1 env d st
  ∧ fst (make_guess 1 env d st) ≠ Exhausted
  ∧ ∀ id st', make_guess 1 env d st = (Ok id, st') →
      id = next_id st
      ∧ ∃ g, heap st' !! id = Some g
          ∧ base g = (if is_conda_environment env self
                         && isfile env (activate_file self)
                      then BaseRef id else BaseNone)
          ∧ (is_conda_environment env self = false →
               versions g = [] ∧ events st' = events st).
Proof.
  intros self Hc Hlink.
  rewrite !(make_guess_no_link_eq env _ d st Hc Hlink).
  pose proof (_find_versions_returns env self (snd (alloc st))) as Hret.
  subst self. split_and!; [done| |].
  - revert Hret. by destruct (_find_versions env _ _) as [[v|e|] stv].
  - clear Hret. intros id st'.
    destruct (_find_versions env _ (alloc st).2) as [[v|e|] stv] eqn:Hv; try done.
    intros [= <- <-]. split; [done|]. eexists.
    split; [apply lookup_insert_eq|]. split; [done|].
    intros Henv. unfold _find_versions in Hv. rewrite Henv in Hv.
    by injection Hv as <- <-.
Qed.

Lemma make_guess_without_activation_link_witness :
  make_guess 7 Alias.e "/r/real" initial_state = make_guess 1 Alias.e "/r/real" initial_state
  ∧ fst (make_guess 1 Alias.e "/r/real" initial_state) ≠ Exhausted
  ∧ ∀ id st', make_guess 1 Alias.e "/r/real" initial_state = (Ok id, st') →
      id = 0
      ∧ ∃ g, heap st' !! id = Some g
          ∧ base g = (if is_conda_environment Alias.e (Guess_attrs Alias.e "/r/real")
                         && isfile Alias.e
                              (activate_file (Guess_attrs Alias.e "/r/real"))
                      then BaseRef id else BaseNone)
          ∧ (is_conda_environment Alias.e (Guess_attrs Alias.e "/r/real") = false →
               versions g = [] ∧ events st' = events initial_state).
Proof.
  apply (make_guess_without_activation_link Alias.e 6 "/r/real" initial_state).
  - reflexivity.
  - vm_compute. reflexivity.
Defined.

(** ** An activation link to the script of another installation *)

(** X4: when [E/bin/activate] is a symbolic link whose target is not
    itself a link, and the candidate base directory, two levels above the
    target, is not [E], then once the request for [E] returns, [E.base] is
    the object cached for the candidate base directory. *)
Theorem link_to_file_base env fuel d st target :
  let self := Guess_attrs env d in
  let base_activate_file :=
    if posixpath.isabs target then target
    else posixpath.join (posixpath.dirname (activate_file self)) target in
  let base_dir := posixpath.dirname (posixpath.dirname base_activate_file) in
  state_wf env st →
  GUESSES st !! path self = None →
  is_conda_environment env self = true →
  islink env (activate_file self) = true →
  readlink env (activate_file self) = inr target →
  islink env base_activate_file = false →
  posixpath.abspath (getcwd env) base_dir ≠ path self →
  ∀ id st', make_guess (S fuel) env d st = (Ok id, st') →
    ∃ g b, heap st' !! id = Some g ∧ base g = BaseRef b ∧ b ≠ id
           ∧ GUESSES st' !! posixpath.abspath (getcwd env) base_dir = Some b.
Proof.
  intros self baf base_dir Hwf Hc Henv Hlink Hread Hlink2 Hne id st' H.
  rewrite make_guess_unfold in H. cbv zeta in H.
  change (posixpath.abspath (getcwd env) d) with (path self) in H.
  apply bind_inv in H as [(st0&st0'&H1&H2)|[(e'&H1&?)|[H1 ?]]]; [|discriminate..].
  injection H1 as <- <-. rewrite Hc in H2.
  apply bind_inv in H2 as [([]&st2&H1&H2)|[(e'&H1&?)|[H1 ?]]]; [|discriminate..].
  apply bind_inv in H1 as [(id1&st1&H1&H3)|[(e'&H1&?)|[H1 ?]]]; [|discriminate..].
  injection H3 as <-.
  unfold Guess_init in H1. fold self in H1.
  apply bind_inv in H1 as [(sid&sta&H1&H3)|[(e'&H1&?)|[H1 ?]]]; [|discriminate..].
  injection H1 as <- <-.
  apply bind_inv in H3 as [(b0&stb&H1&H3)|[(e'&H1&?)|[H1 ?]]]; [|discriminate..].
  (* base resolution asks for the candidate directory *)
  unfold _find_base in H1. rewrite Henv, Hlink in H1.
  unfold resolve_link in H1. unfold bind at 2 in H1. rewrite Hread in H1.
  cbn [lift ret] in H1. unfold bind at 1 in H1.
  assert (Hres : (if negb (posixpath.isabs target)
                  then ret (posixpath.join (posixpath.dirname (activate_file self)) target)
                  else ret target)
                   {| heap := heap st; next_id := S (next_id st);
                      GUESSES := GUESSES st; events := events st |}
                 = (Ok baf, {| heap := heap st; next_id := S (next_id st);
                               GUESSES := GUESSES st; events := events st |})).
  { subst baf. by destruct (posixpath.isabs target). }
  rewrite Hres in H1. rewrite Hlink2 in H1. fold base_dir in H1.
  apply bind_inv in H1 as [(b&stm&H1&H4)|[(e'&H1&?)|[H1 ?]]]; [|discriminate..].
  injection H4 as <- <-.
  pose proof (alloc_wf env st Hwf) as Hwfa. cbn [alloc snd] in Hwfa.
  pose proof (alloc_ext st) as Hexa. cbn [alloc snd] in Hexa.
  apply make_guess_spec in H1 as (Hwfm&Hexm&Hok); [|done].
  destruct (Hok b eq_refl) as (Hcb&gb&Hgb&_).
  assert (Hbid : b ≠ next_id st).
  { intros ->. destruct (ext_fresh _ _ Hexm _ _ Hcb) as [Hold|Hnew];
      cbn [GUESSES next_id] in *; [|lia].
    destruct (wf_cache _ _ Hwf _ _ Hold) as (g0&Hg0&_).
    destruct (wf_heap _ _ Hwf _ _ Hg0). lia. }
  apply bind_inv in H3 as [(v&stc&H1&H3)|[(e'&H1&?)|[H1 ?]]]; [|discriminate..].
  apply _find_versions_only_events in H1 as (Hh&Hn&Hg&_).
  injection H3 as <- <-.
  apply bind_inv in H2 as [(id2&st2'&H1&H2)|[(e'&H1&?)|[H1 ?]]]; [|discriminate..].
  unfold cache_get in H1. cbn [GUESSES cache_set snd] in H1.
  rewrite lookup_insert_eq in H1. injection H1 as <- <-.
  apply bind_inv in H2 as [(g&st2'&H1&H2)|[(e'&H1&?)|[H1 ?]]]; [|discriminate..].
  unfold deref in H1. cbn [heap] in H1. rewrite lookup_insert_eq in H1.
  injection H1 as <- <-. cbn [base set_versions set_base] in H2.
  injection H2 as <- <-.
  eexists _, b. cbn [heap GUESSES].
  split_and!; [apply lookup_insert_eq|done|done|].
  rewrite lookup_insert_ne by done. by rewrite Hg.
Qed.

Lemma link_to_file_base_witness :
  let e := TreeFS.env Scenario.tree "/" in
  let st' := snd (make_guess 4 e "/root/envB" initial_state) in
  ∃ g b, heap st' !! 0 = Some g ∧ base g = BaseRef b ∧ b ≠ 0
         ∧ GUESSES st' !! "/root/envA" = Some b.
Proof.
  intros e st'.
  apply (link_to_file_base e 3 "/root/envB" initial_state
           "/root/envA/bin/activate").
  - apply initial_state_wf.
  - reflexivity.
  - vm_compute. reflexivity.
  - vm_compute. reflexivity.
  - vm_compute. reflexivity.
  - vm_compute. reflexivity.
  - vm_compute. discriminate.
  - vm_compute. reflexivity.
Defined.

(** ** Entries of the metadata directory that are not tracked *)

Lemma _find_versions_step_untracked env self vs name st :
  tracked name = false → _find_versions_step env self vs name st = (Ok vs, st).
Proof.
  unfold tracked, _find_versions_step. intros H.
  destruct (posixpath.endswith ".json" name); [|done].
  cbn [andb] in H. by rewrite H.
Qed.

(** X5: the entries of [conda-meta] that lack the extension or a tracked
    prefix have no part in version extraction: the loop gives the same
    result, and leaves the same state, as on the tracked entries alone;
    their files are not even opened. With no tracked entry at all the
    versions come back as they were. *)
Theorem untracked_entries_are_ignored env self vs names st :
  _find_versions_loop env self vs names st
  = _find_versions_loop env self vs
      (filter (λ n, tracked n = true) names) st
  ∧ (Forall (λ n, tracked n = false) names →
     _find_versions_loop env self vs names st = (Ok vs, st)).
Proof.
  split.
  - revert vs st. induction names as [|n names IH]; intros vs st; [done|].
    destruct (tracked n) eqn:Ht.
    + rewrite filter_cons_True by done. cbn [_find_versions_loop]. unfold bind.
      destruct (_find_versions_step env self vs n st) as [[vs'|e|] st1]; [apply IH|done..].
    + rewrite filter_cons_False by (rewrite Ht; done).
      cbn [_find_versions_loop]. unfold bind.
      rewrite (_find_versions_step_untracked env self vs n st Ht). apply IH.
  - revert vs st. induction names as [|n names IH]; intros vs st Hall; [done|].
    inversion Hall as [|?? Hn Hall']; subst.
    cbn [_find_versions_loop]. unfold bind.
    rewrite (_find_versions_step_untracked env self vs n st Hn). by apply IH.
Qed.

Lemma untracked_entries_are_ignored_witness :
  let self := Guess_attrs Corrupt.e "/envs/bad" in
  _find_versions_loop Corrupt.e self [] ["history"; "zlib-1.2.json"] initial_state
  = (Ok [], initial_state).
Proof.
  intros self.
  apply (untracked_entries_are_ignored Corrupt.e self []
           ["history"; "zlib-1.2.json"] initial_state).
  repeat constructor.
Defined.

(** ** The report for Jira *)

(** X6: for an object on the heap whose [base], when an object, is on the
    heap too, [report_for_jira] prints one line on the standard output
    when the python version is a string, the placeholder of an absent
    entry included, and otherwise raises [AttributeError] and prints
    nothing. *)
Theorem report_for_jira_outcome env guess st g :
  heap st !! guess = Some g →
  (∀ b, base g = BaseRef b → is_Some (heap st !! b)) →
  match dict_get (versions g) (PStr "python") (PStr N_A) with
  | PStr pv =>
      ∃ line, report_for_jira env guess st = (Ok tt, [(stdout, line)])
  | _ => report_for_jira env guess st = (Raise (AttributeError "startswith"), [])
  end.
Proof.
  intros Hg Hb. unfold report_for_jira. rewrite Hg.
  destruct (dict_get (versions g) (PStr "python") (PStr N_A)); try done.
  destruct (base g) as [|b|s0] eqn:Hbase; [by eexists| |by eexists].
  destruct (Nat.eqb b guess); [by eexists|].
  destruct (Hb b eq_refl) as [gb ->]. by eexists.
Qed.

Lemma report_for_jira_outcome_witness :
  let r := make_guess 3 Alias.e "/r/real" initial_state in
  ∃ line, report_for_jira Alias.e 0 (snd r) = (Ok tt, [(stdout, line)]).
Proof.
  intros r.
  destruct (heap (snd r) !! 0) as [g|] eqn:Hg; [|vm_compute in Hg; discriminate].
  assert (Hgv : g = {| dirpath := "/r/real"; path := "/r/real";
                       meta_dir := "/r/real/conda-meta";
                       history_file := "/r/real/conda-meta/history";
                       bin_dir := "/r/real/bin";
                       activate_file := "/r/real/bin/activate";
                       base := BaseRef 0; versions := [] |}).
  { vm_compute in Hg. by injection Hg as <-. }
  pose proof (report_for_jira_outcome Alias.e 0 (snd r) g Hg) as H.
  rewrite Hgv in H. apply H.
  intros b [= <-]. rewrite Hg. by eexists.
Defined.

(** ** Resolving a link *)

Lemma isabs_cons s : posixpath.isabs (String "/" s) = true.
Proof.
  unfold posixpath.isabs, posixpath.startswith. cbn [String.prefix].
  destruct (ascii_dec "/" "/"); [by destruct s|done].
Qed.

Lemma isabs_inv s : posixpath.isabs s = true → ∃ r, s = String "/" r.
Proof.
  destruct s as [|c r]; [done|].
  unfold posixpath.isabs, posixpath.startswith. cbn [String.prefix].
  destruct (ascii_dec "/" c) as [<-|]; [eauto|done].
Qed.

Lemma dirname_abs p :
  posixpath.isabs p = true → posixpath.isabs (posixpath.dirname p) = true.
Proof.
  intros [r ->]%isabs_inv.
  unfold posixpath.dirname. cbn [posixpath.rsplit_sep].
  destruct (posixpath.rsplit_sep r) as [h t].
  assert (Hhead : ∀ h', posixpath.isabs
            match posixpath.rstrip_sep (String "/" h') with
            | "" => String "/" h'
            | String a s => String a s
            end = true).
  { intros h'. cbn [posixpath.rstrip_sep].
    destruct (posixpath.rstrip_sep h'); apply isabs_cons. }
  destruct h as [|a h].
  - change (Ascii.eqb "/" posixpath.sep) with true. cbn [fst]. apply (Hhead "").
  - cbn [fst]. apply (Hhead (String a h)).
Qed.

(** X7: [resolve_link] changes nothing in the state; it fails exactly when
    [os.readlink] does, with its error; an absolute target is returned as
    it is, a relative one joined to the directory of the link; and the
    path resolved for an absolute link is absolute. *)
Theorem resolve_link_result env link st :
  match readlink env link with
  | inl e => resolve_link env link st = (Raise e, st)
  | inr target =>
      resolve_link env link st
      = (Ok (if posixpath.isabs target then target
             else posixpath.join (posixpath.dirname link) target), st)
      ∧ (posixpath.isabs link = true →
         posixpath.isabs
           (if posixpath.isabs target then target
            else posixpath.join (posixpath.dirname link) target) = true)
  end.
Proof.
  unfold resolve_link, bind. destruct (readlink env link) as [e|target]; [done|].
  cbn [lift ret]. destruct (posixpath.isabs target) eqn:Habs; cbn [negb].
  - done.
  - split; [done|]. intros Hl. apply dirname_abs, isabs_inv in Hl as [r Hr].
    unfold posixpath.join. unfold posixpath.isabs in Habs. rewrite Habs, Hr.
    destruct (_ || _); rewrite string_app_cons; apply isabs_cons.
Qed.

Lemma resolve_link_result_witness :
  let e := TreeFS.env Scenario.tree "/" in
  resolve_link e "/root/envB/bin/activate" initial_state
  = (Ok "/root/envA/bin/activate", initial_state)
  ∧ posixpath.isabs "/root/envA/bin/activate" = true.
Proof.
  intros e.
  pose proof (resolve_link_result e "/root/envB/bin/activate" initial_state) as H.
  assert (Hr : readlink e "/root/envB/bin/activate"
               = inr "/root/envA/bin/activate") by (vm_compute; reflexivity).
  rewrite Hr in H. destruct H as [H1 H2].
  split; [exact H1|apply H2; reflexivity].
Defined.

(** ** The host name *)

(** X8: the host printed by [report_for_jira] is the node name up to its
    first dot: it holds no dot, and what follows it in the node name is
    nothing or begins with a dot. *)
Theorem before_dot_prefix s :
  (∀ a b, before_dot s ≠ a +:+ String "." b)
  ∧ ∃ rest, s = before_dot s +:+ rest
            ∧ (rest = "" ∨ ∃ r, rest = String "." r).
Proof.
  induction s as [|c s [IH1 (rest&IH2&IH3)]].
  - split; [by intros [|??] ?|]. exists "". by split; [|left].
  - cbn [before_dot]. destruct (Ascii.eqb c ".") eqn:Hc.
    + apply Ascii.eqb_eq in Hc as ->. split; [by intros [|??] ?|].
      exists (String "." s). split; [done|right; eauto].
    + split.
      * intros [|a0 a] b; rewrite ?string_app_nil_l, ?string_app_cons.
        -- intros [= -> _]. by rewrite Ascii.eqb_refl in Hc.
        -- intros [= _ H]. by apply (IH1 a b).
      * exists rest. rewrite string_app_cons. split; [by rewrite <- IH2|done].
Qed.

(** ** Start directories *)

Lemma for_each_app {A} (f : A → M unit) (l1 l2 : list A) st :
  for_each f (l1 ++ l2) st
  = match for_each f l1 st with
    | (Ok _, st1) => for_each f l2 st1
    | r => r
    end.
Proof.
  revert st. induction l1 as [|a l1 IH]; intros st; [done|].
  cbn [app for_each]. unfold bind.
  destruct (f a st) as [[[]|e|] st1]; [apply IH|done|done].
Qed.

(** X9: [main] surveys the start directories one after the other in one
    state: surveying [starts1 ++ starts2] is surveying [starts1] and then,
    if that returned, [starts2] from the state reached, cache included; an
    exception in the first part ends the run. And a start directory that
    cannot be listed costs one message on the standard error: the run goes
    on with the next start directory as if it had not been given. *)
Theorem main_start_directories env fuel report starts1 starts2 st :
  main env fuel report (starts1 ++ starts2) st
  = match main env fuel report starts1 st with
    | (Ok _, st1) => main env fuel report starts2 st1
    | r => r
    end
  ∧ ∀ start err,
      scandir env start = inl err →
      main env (S fuel) report (start :: starts2) st
      = main env (S fuel) report starts2
          (snd (emit (EvOnError err
                      :: (print_event <$> snd (_print_stderr err st))) st)).
Proof.
  split; [apply for_each_app|].
  intros start err Hscan. unfold main. cbn [for_each]. unfold bind at 1.
  unfold survey. cbn [walk]. rewrite Hscan. unfold bind at 1.
  cbn [emit]. unfold call, _print_stderr.
  cbn [emit snd fmap list_fmap print_event events heap next_id GUESSES].
  by rewrite <- app_assoc.
Qed.

Lemma main_start_directories_witness :
  main Unreadable.e 5 print ["/r/locked"; "/r/b"] initial_state
  = main Unreadable.e 5 print ["/r/b"]
      (snd (emit [EvOnError (OSError "[Errno 13] Permission denied: /r/locked");
                  EvStderr "[Errno 13] Permission denied: /r/locked"]
              initial_state)).
Proof.
  apply (proj2 (main_start_directories Unreadable.e 4 print [] ["/r/b"]
                  initial_state) "/r/locked").
  vm_compute. reflexivity.
Defined.

(** ** What [make_guess] prints *)

Lemma pfo_same {A} (c : M A) :
  (∀ st, events (snd (c st)) = events st) → prints_on_failure_only c.
Proof. intros H st o st' Hc. left. specialize (H st). by rewrite Hc in H. Qed.

Lemma pfo_bind {A B} (c : M A) (k : A → M B) :
  prints_on_failure_only c → (∀ a, prints_on_failure_only (k a)) →
  prints_on_failure_only (bind c k).
Proof.
  intros Hc Hk st o st' H.
  apply bind_inv in H as [(a&st1&H1&H2)|[(e'&H1&->)|[H1 ->]]].
  - destruct (Hc _ _ _ H1) as [He|(x&f&?&_)]; [|done].
    destruct (Hk a _ _ _ H2) as [He2|(x&f&->&He2)]; [left; congruence|].
    right. exists x, f. by rewrite He2, He.
  - destruct (Hc _ _ _ H1) as [He|(x&f&[= <-]&He)]; [by left|].
    right. by exists e', f.
  - destruct (Hc _ _ _ H1) as [He|(x&f&?&_)]; [by left|done].
Qed.

Lemma pfo_lift {A} (r : exn + A) : prints_on_failure_only (lift r).
Proof. by destruct r; apply pfo_same. Qed.

Lemma pfo_py_get data key : prints_on_failure_only (py_get data key).
Proof. by destruct data; apply pfo_same. Qed.

Lemma pfo_deref id : prints_on_failure_only (deref id).
Proof. apply pfo_same. intros st. unfold deref. by destruct (heap st !! id). Qed.

Lemma pfo_cache_get p : prints_on_failure_only (cache_get p).
Proof.
  apply pfo_same. intros st. unfold cache_get. by destruct (GUESSES st !! p).
Qed.

Section Prints.

Variable env : Env.

Lemma pfo_find_versions_step self vs name :
  prints_on_failure_only (_find_versions_step env self vs name).
Proof.
  unfold _find_versions_step.
  destruct (negb _); [by apply pfo_same|]. destruct (negb _); [by apply pfo_same|].
  destruct (load env _) as [e|e|data].
  - by apply pfo_same.
  - intros st o st' [= <- <-]. right. by exists e, (posixpath.join (meta_dir self) name).
  - apply pfo_bind; [apply pfo_py_get|intros n].
    apply pfo_bind; [apply pfo_py_get|intros v].
    destruct (truthy n); [destruct (hashable n)|]; by apply pfo_same.
Qed.

Lemma pfo_find_versions_loop self names : ∀ vs,
  prints_on_failure_only (_find_versions_loop env self vs names).
Proof.
  induction names as [|n names IH]; intros vs; [by apply pfo_same|].
  cbn [_find_versions_loop].
  apply pfo_bind; [apply pfo_find_versions_step|apply IH].
Qed.

Lemma pfo_find_versions self : prints_on_failure_only (_find_versions env self).
Proof.
  unfold _find_versions. destruct (is_conda_environment env self);
    [|by apply pfo_same].
  apply pfo_bind; [apply pfo_lift|intros names; apply pfo_find_versions_loop].
Qed.

Lemma pfo_Guess_init mg d :
  (∀ p, prints_on_failure_only (mg p)) →
  prints_on_failure_only (Guess_init env mg d).
Proof.
  intros Hmg. unfold Guess_init.
  apply pfo_bind; [by apply pfo_same|intros self_id].
  apply pfo_bind; [|intros b].
  { unfold _find_base. destruct (is_conda_environment env _); [|by apply pfo_same].
    destruct (islink env _); [|by destruct (isfile env _); apply pfo_same].
    apply pfo_bind; [|intros t].
    - unfold resolve_link. apply pfo_bind; [apply pfo_lift|intros t].
      by destruct (negb _); apply pfo_same.
    - destruct (islink env t); [by apply pfo_same|].
      apply pfo_bind; [apply Hmg|intros b]. by apply pfo_same. }
  apply pfo_bind; [apply pfo_find_versions|intros v].
  apply pfo_bind; [by apply pfo_same|intros _]. by apply pfo_same.
Qed.

Lemma pfo_make_guess fuel : ∀ d, prints_on_failure_only (make_guess fuel env d).
Proof.
  induction fuel as [|fuel IH]; intros d; [by apply pfo_same|].
  rewrite make_guess_unfold. cbv zeta.
  apply pfo_bind; [by apply pfo_same|intros st0].
  apply pfo_bind; [|intros _].
  { destruct (GUESSES _ !! _); [by apply pfo_same|].
    apply pfo_bind; [by apply pfo_Guess_init|intros g]. by apply pfo_same. }
  apply pfo_bind; [apply pfo_cache_get|intros guess].
  apply pfo_bind; [apply pfo_deref|intros g].
  apply pfo_bind; [|intros _; by apply pfo_same].
  destruct (base g); try by apply pfo_same.
  apply pfo_bind; [apply IH|intros b].
  apply pfo_bind; [apply pfo_deref|intros g']. by apply pfo_same.
Qed.

End Prints.

(** X10: [make_guess] prints nothing when it returns, however many
    objects it constructs on the way. When it does not return it has
    printed nothing either, unless it raises after [json.load] rejected a
    metadata file: then the one line naming that file is all it printed. *)
Theorem make_guess_prints_on_failure_only env fuel d st o st' :
  make_guess fuel env d st = (o, st') →
  events st' = events st
  ∨ ∃ x f, o = Raise x
           ∧ events st' = events st ++ [EvStderr ("!! meta_file: " +:+ f)].
Proof. apply pfo_make_guess. Qed.

Lemma make_guess_prints_on_failure_only_witness :
  let r := make_guess 5 Corrupt.e "/envs/bad" initial_state in
  events (snd r) = events initial_state
  ∨ ∃ x f, fst r = Raise x
           ∧ events (snd r)
             = events initial_state ++ [EvStderr ("!! meta_file: " +:+ f)].
Proof.
  intros r.
  apply (make_guess_prints_on_failure_only Corrupt.e 5 "/envs/bad" initial_state
           (fst r) (snd r)).
  apply surjective_pairing.
Defined.

(** ** What a walk yields and reports *)

Section Trail.

Variable env : Env.
Variable report : callback nat.
Variable onerror : callback exn.
Variable avoid : list string.

Lemma trail_refl top st : trail env top st st.
Proof.
  exists []. rewrite app_nil_r. split_and!; [done|done| |done].
  intros id Hid. by apply elem_of_nil in Hid.
Qed.

Lemma trail_trans top st st1 st2 :
  state_ext st1 st2 →
  trail env top st st1 → trail env top st1 st2 → trail env top st st2.
Proof.
  intros Hext (e1&He1&Ha1&Hb1&Hc1) (e2&He2&Ha2&Hb2&Hc2).
  exists (e1 ++ e2). rewrite He2, He1, app_assoc, yielded_app, reported_app.
  split_and!; [done|by apply Forall_app| |rewrite !length_app; lia].
  intros id [Hid|Hid]%elem_of_app.
  - destruct (Hb1 id Hid) as (p&Hp&Hc&Hpe). exists p. split_and!; [|
      by eapply lookup_weaken; [exact Hc|apply Hext]|done].
    apply elem_of_app. by left.
  - destruct (Hb2 id Hid) as (p&Hp&Hc&Hpe). exists p. split_and!; [|done|done].
    apply elem_of_app. by right.
Qed.

Lemma trail_child top d st st' :
  islink env (posixpath.join top d) = false →
  trail env (posixpath.join top d) st st' → trail env top st st'.
Proof.
  intros Hl (evs&He&Ha&Hb&Hc). exists evs. split_and!; try done.
  eapply Forall_impl; [exact Ha|]. intros q [->|Hq]; by right.
Qed.

(** The events of one iteration of the loop of [survey]. *)
Lemma survey_body_events fuel dirpath dirnames st o st' :
  state_wf env st →
  survey_body env (make_guess fuel env) report avoid dirpath dirnames st = (o, st') →
  ∃ e1, Forall is_print e1
    ∧ (events st' = events st ++ EvYield dirpath :: e1
       ∨ ∃ guess e3, Forall is_print e3
           ∧ events st' = events st ++ EvYield dirpath :: e1 ++ EvReport guess :: e3
           ∧ GUESSES st' !! posixpath.abspath (getcwd env) dirpath = Some guess
           ∧ env_at env dirpath = true).
Proof.
  intros Hwf H. unfold survey_body in H.
  apply bind_inv in H as [([]&st0&H1&H2)|[(e'&H1&->)|[H1 ->]]]; [|discriminate..].
  injection H1 as <-.
  set (sty := {| heap := heap st; next_id := next_id st; GUESSES := GUESSES st;
                 events := events st ++ [EvYield dirpath] |}) in *.
  assert (Hwfy : state_wf env sty) by (by destruct Hwf).
  assert (Hy : ∀ e, events sty ++ e = events st ++ EvYield dirpath :: e).
  { intros e. unfold sty. cbn [events]. by rewrite <- app_assoc. }
  apply bind_inv in H2 as [(guess&st1&H1&H2)|[(e'&H1&->)|[H1 ->]]];
    pose proof (quietM_make_guess env fuel _ _ _ _ H1) as (e1&He1&Hp1);
    try (exists e1; split; [done|left]; by rewrite He1, Hy).
  apply make_guess_spec in H1 as (Hwf1&Hex1&Hok); [|done].
  destruct (Hok guess eq_refl) as (Hc&g&Hg&_).
  pose proof (is_conda_environment_cached env st1 _ guess g Hwf1 Hc Hg) as Henv.
  fold (env_at env dirpath) in Henv.
  apply bind_inv in H2 as [(g0&st1'&H3&H2)|[(e'&H3&?)|[H3 ?]]];
    unfold deref in H3; rewrite Hg in H3; try discriminate.
  injection H3 as <- <-. exists e1. split; [done|].
  destruct (is_conda_environment env g) eqn:Hisenv.
  - right.
    apply bind_inv in H2 as [([]&st2&H3&H2)|[(e'&H3&?)|[H3 ?]]]; [|discriminate..].
    injection H3 as <-.
    set (str := {| heap := heap st1; next_id := next_id st1;
                   GUESSES := GUESSES st1;
                   events := events st1 ++ [EvReport guess] |}) in *.
    assert (Hcall : ∀ o2 st3, call report guess str = (o2, st3) →
      ∃ e3, Forall is_print e3
        ∧ events st3 = events st ++ EvYield dirpath :: e1 ++ EvReport guess :: e3
        ∧ GUESSES st3 !! posixpath.abspath (getcwd env) dirpath = Some guess).
    { intros o2 st3 Hcall.
      pose proof (call_only_events report guess str) as Hoe.
      pose proof (quietM_call report guess _ _ _ Hcall) as (e3&He3&Hp3).
      rewrite Hcall in Hoe. cbn [snd] in Hoe. destruct Hoe as (_&_&Hg3&_).
      exists e3. split_and!; [done| |by rewrite Hg3].
      rewrite He3. unfold str. cbn [events]. rewrite He1, <- !app_assoc, Hy.
      done. }
    apply bind_inv in H2 as [([]&st3&H3&H2)|[(e'&H3&->)|[H3 ->]]].
    + injection H2 as <- <-. destruct (Hcall _ _ H3) as (e3&?&?&?). by exists guess, e3.
    + destruct (Hcall _ _ H3) as (e3&?&?&?). by exists guess, e3.
    + destruct (Hcall _ _ H3) as (e3&?&?&?). by exists guess, e3.
  - left. destruct (existsb _ avoid); injection H2 as <- <-; by rewrite He1, Hy.
Qed.

Lemma survey_body_trail fuel dirpath dirnames st o st' :
  state_wf env st →
  survey_body env (make_guess fuel env) report avoid dirpath dirnames st = (o, st') →
  trail env dirpath st st'.
Proof.
  intros Hwf H.
  destruct (survey_body_events _ _ _ _ _ _ Hwf H)
    as (e1&Hp1&[He|(guess&e3&Hp3&He&Hc&Hpe)]).
  - exists (EvYield dirpath :: e1). split; [done|].
    change (EvYield dirpath :: e1) with ([EvYield dirpath] ++ e1).
    rewrite yielded_app, reported_app, (prints_not_yielded e1 Hp1),
      (prints_not_reported e1 Hp1). cbn.
    split_and!; [by repeat constructor| |lia].
    intros id Hid. by apply elem_of_nil in Hid.
  - exists (EvYield dirpath :: e1 ++ EvReport guess :: e3). split; [done|].
    change (EvYield dirpath :: e1 ++ EvReport guess :: e3)
      with ([EvYield dirpath] ++ e1 ++ [EvReport guess] ++ e3).
    rewrite !yielded_app, !reported_app, (prints_not_yielded e1 Hp1),
      (prints_not_reported e1 Hp1), (prints_not_yielded e3 Hp3),
      (prints_not_reported e3 Hp3). cbn.
    split_and!; [by repeat constructor| |lia].
    intros id ->%list_elem_of_singleton. exists dirpath.
    split; [by apply list_elem_of_singleton|done].
Qed.

Lemma walk_trail fuel0 fuel : ∀ top st o st',
  state_wf env st →
  walk env fuel (survey_body env (make_guess fuel0 env) report avoid)
    onerror top st = (o, st') →
  trail env top st st'.
Proof.
  induction fuel as [|fuel IH]; intros top st o st' Hwf H.
  { injection H as <- <-. apply trail_refl. }
  cbn [walk] in H. destruct (scandir env top) as [err|[dirs nondirs]] eqn:Hsc.
  - apply bind_inv in H as [([]&ste&H1&H2)|[(e'&H1&?)|[H1 ?]]]; [|discriminate..].
    injection H1 as <-.
    pose proof (quietM_call onerror err _ _ _ H2) as (e3&He3&Hp3).
    exists ([EvOnError err] ++ e3). cbn [events] in He3.
    rewrite He3, <- app_assoc, yielded_app, reported_app,
      (prints_not_yielded e3 Hp3), (prints_not_reported e3 Hp3). cbn.
    split_and!; [done|done| |lia].
    intros id Hid. by apply elem_of_nil in Hid.
  - assert (Hloop : ∀ l s1 o2 s2, state_wf env s1 →
      for_each
        (walk_child env
           (walk env fuel (survey_body env (make_guess fuel0 env) report avoid)
              onerror) top) l s1 = (o2, s2) →
      trail env top s1 s2).
    { induction l as [|d l IHl]; intros s1 o2 s2 Hwf1 Hl.
      { injection Hl as <- <-. apply trail_refl. }
      assert (Hchild : ∀ o3 s3,
        walk_child env
          (walk env fuel (survey_body env (make_guess fuel0 env) report avoid)
             onerror) top d s1 = (o3, s3) →
        trail env top s1 s3 ∧ state_wf env s3).
      { intros o3 s3 Hc. unfold walk_child in Hc. cbv zeta in Hc.
        destruct (islink env (posixpath.join top d)) eqn:Hl'.
        - injection Hc as <- <-. split; [apply trail_refl|done].
        - split.
          + eapply trail_child; [done|by eapply IH].
          + by eapply walk_ext in Hc as [? _]. }
      cbn [for_each] in Hl.
      apply bind_inv in Hl as [([]&s3&H1&H2)|[(e'&H1&->)|[H1 ->]]];
        destruct (Hchild _ _ H1) as [Ht Hwf3]; try done.
      eapply trail_trans; [|exact Ht|by eapply IHl].
      eapply for_each_ext in H2 as [_ Hext]; [exact Hext| |done].
      intros a sa oa sa' Hwa Ha. unfold walk_child in Ha. cbv zeta in Ha.
      destruct (islink env _); [|by eapply walk_ext].
      injection Ha as <- <-. split; [done|apply state_ext_refl]. }
    apply bind_inv in H as [(dirs'&st1&H1&H2)|[(e'&H1&->)|[H1 ->]]];
      pose proof (survey_body_trail _ _ _ _ _ _ Hwf H1) as Hbody; try done.
    apply survey_body_spec in H1 as [(Hwf1&_) _]; [|done].
    eapply trail_trans; [|exact Hbody|by eapply Hloop].
    eapply for_each_ext in H2 as [_ Hext]; [exact Hext| |done].
    intros a sa oa sa' Hwa Ha. unfold walk_child in Ha. cbv zeta in Ha.
    destruct (islink env _); [|by eapply walk_ext].
    injection Ha as <- <-. split; [done|apply state_ext_refl].
Qed.

End Trail.

(** X11: [survey] does not follow symbolic links: every directory it
    yields, the start directory apart, is not a symbolic link. *)
Theorem survey_follows_no_link
    env report onerror avoid fuel start st o st' :
  state_wf env st →
  survey env fuel start report onerror avoid st = (o, st') →
  ∃ evs, events st' = events st ++ evs
    ∧ ∀ q, q ∈ yielded evs → q = start ∨ islink env q = false.
Proof.
  intros Hwf H. apply walk_trail in H as (evs&He&Ha&_); [|done].
  exists evs. split; [done|]. by apply Forall_forall.
Qed.

Lemma survey_follows_no_link_witness :
  let st' := snd (survey Alias.e 10 "/r" report_print _print_stderr
                    PATHOLOGICAL_DIRS initial_state) in
  ∃ evs, events st' = events initial_state ++ evs
    ∧ ∀ q, q ∈ yielded evs → q = "/r" ∨ islink Alias.e q = false.
Proof.
  intros st'.
  apply (survey_follows_no_link Alias.e report_print _print_stderr
           PATHOLOGICAL_DIRS 10 "/r" initial_state
           (fst (survey Alias.e 10 "/r" report_print _print_stderr
                   PATHOLOGICAL_DIRS initial_state)) st').
  - apply initial_state_wf.
  - apply surjective_pairing.
Defined.

(** X12: [survey] reports nothing but environments it came by: every
    object passed to [report] is the object cached for a yielded directory
    that is an environment, and there are no more reports than yielded
    directories. *)
Theorem survey_reports_yielded_environments
    env report onerror avoid fuel start st o st' :
  state_wf env st →
  survey env fuel start report onerror avoid st = (o, st') →
  ∃ evs, events st' = events st ++ evs
    ∧ length (reported evs) ≤ length (yielded evs)
    ∧ ∀ id, id ∈ reported evs →
        ∃ p, p ∈ yielded evs
             ∧ GUESSES st' !! posixpath.abspath (getcwd env) p = Some id
             ∧ env_at env p = true.
Proof.
  intros Hwf H. apply walk_trail in H as (evs&He&_&Hb&Hc); [|done].
  by exists evs.
Qed.

Lemma survey_reports_yielded_environments_witness :
  let e := TreeFS.env Scenario.tree "/" in
  let st' := snd (survey e 10 "/root" report_print _print_stderr
                    PATHOLOGICAL_DIRS initial_state) in
  ∃ evs, events st' = events initial_state ++ evs
    ∧ length (reported evs) ≤ length (yielded evs)
    ∧ ∀ id, id ∈ reported evs →
        ∃ p, p ∈ yielded evs
             ∧ GUESSES st' !! posixpath.abspath (getcwd e) p = Some id
             ∧ env_at e p = true.
Proof.
  intros e st'.
  apply (survey_reports_yielded_environments e report_print _print_stderr
           PATHOLOGICAL_DIRS 10 "/root" initial_state
           (fst (survey e 10 "/root" report_print _print_stderr
                   PATHOLOGICAL_DIRS initial_state)) st').
  - apply initial_state_wf.
  - apply surjective_pairing.
Defined.

(** ** Surveying a directory again *)

Section Again.

Variable env : Env.
Variables report report' : callback nat.
Variables onerror onerror' : callback exn.
Variable avoid : list string.

(** Once the body of the loop has returned, the object for its directory
    is cached with its [base] settled. *)
Lemma survey_body_settled fuel0 dirpath dirnames st dirs1 st1 :
  state_wf env st →
  survey_body env (make_guess fuel0 env) report avoid dirpath dirnames st
    = (Ok dirs1, st1) →
  ∃ fuel' id g, fuel0 = S fuel'
    ∧ GUESSES st1 !! posixpath.abspath (getcwd env) dirpath = Some id
    ∧ heap st1 !! id = Some g ∧ ∀ s, base g ≠ BaseStr s.
Proof.
  intros Hwf H. unfold survey_body in H.
  apply bind_inv in H as [([]&st0&H1&H2)|[(e'&H1&?)|[H1 ?]]]; [|discriminate..].
  injection H1 as <-.
  set (sty := {| heap := heap st; next_id := next_id st; GUESSES := GUESSES st;
                 events := events st ++ [EvYield dirpath] |}) in *.
  assert (Hwfy : state_wf env sty) by (by destruct Hwf).
  apply bind_inv in H2 as [(guess&s1&H1&H2)|[(e'&H1&?)|[H1 ?]]]; [|discriminate..].
  destruct fuel0 as [|fuel']; [discriminate|]. exists fuel'.
  apply make_guess_spec in H1 as (Hwf1&_&Hok); [|done].
  destruct (Hok guess eq_refl) as (Hc&g&Hg&Hb).
  apply bind_inv in H2 as [(g0&s1'&H3&H2)|[(e'&H3&?)|[H3 ?]]];
    unfold deref in H3; rewrite Hg in H3; try discriminate.
  injection H3 as <- <-. exists guess, g. split; [done|].
  destruct (is_conda_environment env g).
  - apply bind_inv in H2 as [([]&s2&H3&H2)|[(e'&H3&?)|[H3 ?]]]; [|discriminate..].
    injection H3 as <-.
    apply bind_inv in H2 as [([]&s3&H3&H2)|[(e'&H3&?)|[H3 ?]]]; [|discriminate..].
    injection H2 as _ <-.
    match type of H3 with call _ _ ?s = _ =>
      pose proof (call_only_events report guess s) as Hoe end.
    rewrite H3 in Hoe. destruct Hoe as (Hh&_&Hg3&_). cbn [snd heap GUESSES] in *.
    by rewrite Hh, Hg3.
  - by destruct (existsb _ avoid); injection H2 as _ <-.
Qed.

(** Running the body again for the same directory, in a later state,
    adds events and nothing else. *)
Lemma survey_body_again fuel0 dirpath dirnames st dirs1 st1 sa o sb :
  state_wf env st →
  survey_body env (make_guess fuel0 env) report avoid dirpath dirnames st
    = (Ok dirs1, st1) →
  state_ext st1 sa →
  survey_body env (make_guess fuel0 env) report' avoid dirpath dirnames sa
    = (o, sb) →
  only_events sa sb.
Proof.
  intros Hwf H Hext H'.
  destruct (survey_body_settled _ _ _ _ _ _ Hwf H) as (fuel'&id&g&->&Hc&Hg&Hb).
  destruct (ext_heap _ _ Hext _ _ Hg) as (g'&Hg'&_&Hstep).
  apply base_step_not_str in Hstep; [|done].
  assert (Hb' : ∀ s, base g' ≠ BaseStr s) by (by rewrite Hstep).
  assert (Hc' : GUESSES sa !! posixpath.abspath (getcwd env) dirpath = Some id)
    by (eapply lookup_weaken; [exact Hc|apply Hext]).
  unfold survey_body in H'.
  apply bind_inv in H' as [([]&s0&H1&H2)|[(e'&H1&?)|[H1 ?]]]; [|discriminate..].
  injection H1 as <-.
  set (say := {| heap := heap sa; next_id := next_id sa; GUESSES := GUESSES sa;
                 events := events sa ++ [EvYield dirpath] |}) in *.
  assert (Hy : only_events sa say).
  { split_and!; try done. by apply prefix_app_r. }
  apply bind_inv in H2 as [(a&s1&H1&H2)|[(e'&H1&?)|[H1 ?]]];
    rewrite (make_guess_cached fuel' env dirpath say id g') in H1 by done;
    try discriminate.
  injection H1 as <- <-.
  apply bind_inv in H2 as [(a&s1&H1&H2)|[(e'&H1&?)|[H1 ?]]];
    unfold deref in H1; cbn [heap say] in H1; rewrite Hg' in H1;
    try discriminate.
  injection H1 as <- <-.
  destruct (is_conda_environment env g').
  - apply bind_inv in H2 as [([]&s2&H3&H2)|[(e'&H3&?)|[H3 ?]]]; [|discriminate..].
    injection H3 as <-.
    set (sr := {| heap := heap say; next_id := next_id say;
                  GUESSES := GUESSES say;
                  events := events say ++ [EvReport id] |}) in *.
    assert (Hr : only_events say sr)
      by (split_and!; try done; by apply prefix_app_r).
    assert (Hall : ∀ o3 s3, call report' id sr = (o3, s3) → only_events sa s3).
    { intros o3 s3 Hcall. pose proof (call_only_events report' id sr) as Hoe.
      rewrite Hcall in Hoe. cbn [snd] in Hoe.
      eapply only_events_trans; [exact Hy|].
      eapply only_events_trans; [exact Hr|exact Hoe]. }
    apply bind_inv in H2 as [([]&s3&H3&H2)|[(e'&H3&?)|[H3 ?]]];
      [injection H2 as _ <-| |]; by eapply Hall.
  - by destruct (existsb _ avoid); injection H2 as _ <-.
Qed.

Lemma walk_again fuel0 fuel : ∀ top st st1 sa o sb,
  state_wf env st →
  walk env fuel (survey_body env (make_guess fuel0 env) report avoid)
    onerror top st = (Ok tt, st1) →
  state_wf env sa → state_ext st1 sa →
  walk env fuel (survey_body env (make_guess fuel0 env) report' avoid)
    onerror' top sa = (o, sb) →
  only_events sa sb.
Proof.
  induction fuel as [|fuel IH]; intros top st st1 sa o sb Hwf H Hwfa Hext H';
    [discriminate|].
  cbn [walk] in H, H'. destruct (scandir env top) as [err|[dirs nondirs]].
  - apply bind_inv in H' as [([]&s0&H1&H2)|[(e'&H1&?)|[H1 ?]]]; [|discriminate..].
    injection H1 as <-.
    match type of H2 with call _ _ ?s = _ =>
      pose proof (call_only_events onerror' err s) as Hoe;
      assert (Hr : only_events sa s)
        by (split_and!; try done; by apply prefix_app_r) end.
    rewrite H2 in Hoe. by eapply only_events_trans.
  - assert (Hchild_ext : ∀ rep one a s oa s', state_wf env s →
      walk_child env
        (walk env fuel (survey_body env (make_guess fuel0 env) rep avoid) one)
        top a s = (oa, s') →
      state_wf env s' ∧ state_ext s s').
    { intros rep one a s oa s' Hws Ha. unfold walk_child in Ha. cbv zeta in Ha.
      destruct (islink env _); [|by eapply walk_ext].
      injection Ha as <- <-. split; [done|apply state_ext_refl]. }
    assert (Hloop : ∀ l s1 s2 sa1 o2 sb2, state_wf env s1 →
      for_each
        (walk_child env
           (walk env fuel (survey_body env (make_guess fuel0 env) report avoid)
              onerror) top) l s1 = (Ok tt, s2) →
      state_wf env sa1 → state_ext s2 sa1 →
      for_each
        (walk_child env
           (walk env fuel (survey_body env (make_guess fuel0 env) report' avoid)
              onerror') top) l sa1 = (o2, sb2) →
      only_events sa1 sb2).
    { induction l as [|d l IHl]; intros s1 s2 sa1 o2 sb2 Hw1 Hl Hwa1 Hex Hl'.
      { injection Hl' as _ <-. apply only_events_refl. }
      cbn [for_each] in Hl, Hl'.
      apply bind_inv in Hl as [([]&s3&H1&H2)|[(e'&H1&?)|[H1 ?]]]; [|discriminate..].
      destruct (Hchild_ext _ _ _ _ _ _ Hw1 H1) as [Hw3 Hex3].
      pose proof (for_each_ext env _ l (Hchild_ext report onerror) _ _ _ Hw3 H2)
        as [_ Hex32].
      assert (Hfirst : ∀ o3 sb3,
        walk_child env
          (walk env fuel (survey_body env (make_guess fuel0 env) report' avoid)
             onerror') top d sa1 = (o3, sb3) →
        only_events sa1 sb3).
      { intros o3 sb3 Hc. unfold walk_child in Hc, H1. cbv zeta in Hc, H1.
        destruct (islink env (posixpath.join top d)).
        - injection Hc as _ <-. apply only_events_refl.
        - eapply (IH _ s1 s3); [done|exact H1|done| |exact Hc].
          by eapply state_ext_trans. }
      apply bind_inv in Hl' as [([]&sb3&H3&H4)|[(e'&H3&?)|[H3 ?]]];
        pose proof (Hfirst _ _ H3) as Hoe; try done.
      eapply only_events_trans; [exact Hoe|].
      eapply (IHl s3 s2); [done|exact H2|by eapply only_events_wf| |exact H4].
      eapply state_ext_trans; [exact Hex|by apply only_events_ext]. }
    apply bind_inv in H as [(dirs1&s1&H1&H2)|[(e'&H1&?)|[H1 ?]]]; [|discriminate..].
    pose proof (survey_body_spec env report avoid _ _ _ _ _ _ Hwf H1)
      as [(Hwf1&_) Hd1].
    pose proof (for_each_ext env _ dirs1 (Hchild_ext report onerror) _ _ _ Hwf1 H2)
      as [_ Hex12].
    assert (Hbody : ∀ o2 sb1,
      survey_body env (make_guess fuel0 env) report' avoid top dirs sa = (o2, sb1) →
      only_events sa sb1).
    { intros o2 sb1 Hb. eapply survey_body_again; [exact Hwf|exact H1| |exact Hb].
      by eapply state_ext_trans. }
    apply bind_inv in H' as [(dirs2&sb1&H3&H4)|[(e'&H3&?)|[H3 ?]]];
      pose proof (Hbody _ _ H3) as Hoe; try done.
    pose proof (survey_body_spec env report' avoid _ _ _ _ _ _ Hwfa H3)
      as [_ Hd2].
    rewrite (Hd2 _ eq_refl), <- (Hd1 _ eq_refl) in H4.
    eapply only_events_trans; [exact Hoe|].
    eapply (Hloop dirs1 s1 st1); [done|exact H2|by eapply only_events_wf| |exact H4].
    eapply state_ext_trans; [exact Hext|by apply only_events_ext].
Qed.

End Again.

(** X13: surveying a start directory again, after a survey of it has
    returned, constructs nothing: whatever was surveyed in between and
    whichever callbacks are used, the second survey finds every object in
    the cache and leaves the heap and [Guess.GUESSES] as they were. *)
Theorem second_survey_constructs_nothing
    env report report' onerror onerror' avoid fuel start st st1 sa o sb :
  state_wf env st →
  survey env fuel start report onerror avoid st = (Ok tt, st1) →
  state_wf env sa → state_ext st1 sa →
  survey env fuel start report' onerror' avoid sa = (o, sb) →
  heap sb = heap sa ∧ next_id sb = next_id sa ∧ GUESSES sb = GUESSES sa.
Proof.
  intros Hwf H Hwfa Hext H'.
  destruct (walk_again env report report' onerror onerror' avoid fuel fuel
              start st st1 sa o sb Hwf H Hwfa Hext H') as (?&?&?&_).
  done.
Qed.

Lemma second_survey_constructs_nothing_witness :
  let e := TreeFS.env Scenario.tree "/" in
  let st1 := snd (survey e 10 "/root" report_print _print_stderr
                    PATHOLOGICAL_DIRS initial_state) in
  let sb := snd (survey e 10 "/root" (report_for_jira e) _print_stderr
                   PATHOLOGICAL_DIRS st1) in
  heap sb = heap st1 ∧ next_id sb = next_id st1 ∧ GUESSES sb = GUESSES st1.
Proof.
  intros e st1 sb.
  assert (H1 : survey e 10 "/root" report_print _print_stderr
                 PATHOLOGICAL_DIRS initial_state = (Ok tt, st1))
    by (vm_compute; reflexivity).
  apply (second_survey_constructs_nothing e report_print (report_for_jira e)
           _print_stderr _print_stderr PATHOLOGICAL_DIRS 10 "/root"
           initial_state st1 st1
           (fst (survey e 10 "/root" (report_for_jira e) _print_stderr
                   PATHOLOGICAL_DIRS st1)) sb).
  - apply initial_state_wf.
  - exact H1.
  - unfold survey in H1. eapply walk_ext; [apply initial_state_wf|exact H1].
  - apply state_ext_refl.
  - apply surjective_pairing.
Defined.
